(** * Jack's car rental: policy iteration (RL_LAB2_car_rental_jupyter.ipynb)

    A shallow embedding of the notebook's three routines

    - [poisson_probability]: the memoised Poisson mass function,
    - [expected_return]: the one-step Bellman backup of a state-action pair,
    - the policy-iteration driver (in-place policy evaluation followed by a
      greedy policy-improvement sweep),

    together with the properties of them that the specification states.

    Modelling conventions.
    - Python [int] is [Z]; Python/NumPy [float] is modelled by the exact
      rationals [Q] (no rounding, no NaN); [-np.inf] is the extra point
      [NegInf] of [efloat].
    - The module-level constants of the notebook are the fields of the class
      [Params]; [notebook] is the instance with the values of the source.
    - [scipy.stats.poisson.pmf] is an external function: it is the field
      [poisson_pmf] of the class [Scipy].
    - The three mutable objects of the program ([value], [policy] and
      [poisson_cache]) live in a [store]; the code runs in a state-and-error
      monad [M] over it.  The parameter [state_value] of [expected_return]
      is a reference to an array; the only array the program ever passes is
      [value], so the model reads the [value] field of the store.
    - Errors are a NumPy [IndexError], a dictionary [KeyError], the
      [ValueError] of [max]/[argmax] on an empty array, and the exhausted
      fuel of a [while True] loop.
    - Plotting and printing are left out. *)

From Stdlib Require Import ZArith QArith Qabs Lia Lqa List Bool.
From stdpp Require Import base option list sorting gmap.

Local Open Scope Z_scope.

(** ** Parameters of the environment *)

Class Params := {
  MAX_CARS : Z;
  MAX_MOVE_OF_CARS : Z;
  RENTAL_REQUEST_FIRST_LOC : Z;
  RENTAL_REQUEST_SECOND_LOC : Z;
  RETURNS_FIRST_LOC : Z;
  RETURNS_SECOND_LOC : Z;
  DISCOUNT : Q;
  RENTAL_CREDIT : Z;
  MOVE_CAR_COST : Z;
  POISSON_UPPER_BOUND : Z
}.

(** The values hard-coded in the notebook. *)
Definition notebook : Params := {|
  MAX_CARS := 20;
  MAX_MOVE_OF_CARS := 5;
  RENTAL_REQUEST_FIRST_LOC := 3;
  RENTAL_REQUEST_SECOND_LOC := 4;
  RETURNS_FIRST_LOC := 3;
  RETURNS_SECOND_LOC := 2;
  DISCOUNT := 9 # 10;
  RENTAL_CREDIT := 10;
  MOVE_CAR_COST := 2;
  POISSON_UPPER_BOUND := 11
|}.

(** The same environment with another per-unit rental credit. *)
Definition with_rental_credit (P : Params) (credit : Z) : Params := {|
  MAX_CARS := @MAX_CARS P;
  MAX_MOVE_OF_CARS := @MAX_MOVE_OF_CARS P;
  RENTAL_REQUEST_FIRST_LOC := @RENTAL_REQUEST_FIRST_LOC P;
  RENTAL_REQUEST_SECOND_LOC := @RENTAL_REQUEST_SECOND_LOC P;
  RETURNS_FIRST_LOC := @RETURNS_FIRST_LOC P;
  RETURNS_SECOND_LOC := @RETURNS_SECOND_LOC P;
  DISCOUNT := @DISCOUNT P;
  RENTAL_CREDIT := credit;
  MOVE_CAR_COST := @MOVE_CAR_COST P;
  POISSON_UPPER_BOUND := @POISSON_UPPER_BOUND P
|}.

(** [scipy.stats.poisson.pmf n lam]. *)
Class Scipy := { poisson_pmf : Z -> Z -> Q }.

(** ** Python and NumPy primitives *)

(** [range(n)] *)
Definition range (n : Z) : list Z := map Z.of_nat (seq 0 (Z.to_nat n)).

(** [np.arange(lo, hi)] *)
Definition arange (lo hi : Z) : list Z := map (fun k => lo + k) (range (hi - lo)).

(** NumPy index normalisation along an axis of length [n]: a negative index
    counts from the end; anything outside [[-n, n)] is an [IndexError]. *)
Definition norm_index (n : nat) (i : Z) : option nat :=
  if (0 <=? i) && (i <? Z.of_nat n) then Some (Z.to_nat i)
  else if (- Z.of_nat n <=? i) && (i <? 0) then Some (Z.to_nat (i + Z.of_nat n))
  else None.

Abbreviation array2 A := (list (list A)) (only parsing).

(** [arr[i, j]] *)
Definition get2 {A} (arr : array2 A) (i j : Z) : option A :=
  match norm_index (length arr) i with
  | None => None
  | Some r =>
    match arr !! r with
    | None => None
    | Some row =>
      match norm_index (length row) j with
      | None => None
      | Some c => row !! c
      end
    end
  end.

(** [arr[i, j] = x] *)
Definition set2 {A} (arr : array2 A) (i j : Z) (x : A) : option (array2 A) :=
  match norm_index (length arr) i with
  | None => None
  | Some r =>
    match arr !! r with
    | None => None
    | Some row =>
      match norm_index (length row) j with
      | None => None
      | Some c => Some (<[r := <[c := x]> row]> arr)
      end
    end
  end.

(** [np.zeros((n, n))] *)
Definition zeros {A} (zero : A) (n : Z) : array2 A :=
  repeat (repeat zero (Z.to_nat n)) (Z.to_nat n).

(** A float or [-np.inf]. *)
Inductive efloat := NegInf | Fin (q : Q).

Definition elt (x y : efloat) : Prop :=
  match x, y with
  | NegInf, NegInf => False
  | NegInf, Fin _ => True
  | Fin _, NegInf => False
  | Fin a, Fin b => (a < b)%Q
  end.

Definition ele (x y : efloat) : Prop := ~ elt y x.

Definition eltb (x y : efloat) : bool :=
  match x, y with
  | NegInf, NegInf => false
  | NegInf, Fin _ => true
  | Fin _, NegInf => false
  | Fin a, Fin b => negb (Qle_bool b a)
  end.

(** [np.argmax]: the index of the first occurrence of the maximum.  The scan
    keeps the best entry so far and replaces it only by a strictly larger one. *)
Fixpoint argmax_from (best_i : nat) (best : efloat) (i : nat) (xs : list efloat) : nat :=
  match xs with
  | [] => best_i
  | x :: xs' =>
    if eltb best x then argmax_from i x (S i) xs'
    else argmax_from best_i best (S i) xs'
  end.

Definition np_argmax (xs : list efloat) : option nat :=
  match xs with
  | [] => None
  | x :: xs' => Some (argmax_from 0%nat x 1%nat xs')
  end.

(** [arr.max()] of a flattened float array. *)
Definition qmax (a b : Q) : Q := if Qle_bool a b then b else a.

Definition np_max (xs : list Q) : option Q :=
  match xs with
  | [] => None
  | x :: xs' => Some (fold_left qmax xs' x)
  end.

(** [abs(a - b)] on two-dimensional arrays, flattened in row-major order. *)
Definition abs_diff (a b : array2 Q) : list Q :=
  concat (zip_with (zip_with (fun x y => Qabs (x - y))) a b).

(** ** The store and the monad *)

(** [read_log] is a ghost field: the index pairs at which [value] has been
    read so far, in order, as they were written in the subscript. *)
Record store := {
  value : array2 Q;
  policy : array2 Z;
  poisson_cache : gmap Z Q;
  read_log : list (Z * Z)
}.

Definition set_value (v : array2 Q) (s : store) : store :=
  {| value := v; policy := policy s; poisson_cache := poisson_cache s;
     read_log := read_log s |}.
Definition set_policy (p : array2 Z) (s : store) : store :=
  {| value := value s; policy := p; poisson_cache := poisson_cache s;
     read_log := read_log s |}.
Definition set_poisson_cache (c : gmap Z Q) (s : store) : store :=
  {| value := value s; policy := policy s; poisson_cache := c;
     read_log := read_log s |}.
Definition log_read (i j : Z) (s : store) : store :=
  {| value := value s; policy := policy s; poisson_cache := poisson_cache s;
     read_log := read_log s ++ [(i, j)] |}.

Inductive error := IndexError | KeyError | ValueError | OutOfFuel.

Inductive res (A : Type) := Ok (a : A) | Err (e : error).
Arguments Ok {A} a.
Arguments Err {A} e.

Definition M (A : Type) : Type := store -> res (A * store).

Definition ret {A} (a : A) : M A := fun s => Ok (a, s).

Definition bind {A B} (m : M A) (k : A -> M B) : M B :=
  fun s => match m s with
           | Ok (a, s') => k a s'
           | Err e => Err e
           end.

Definition raise {A} (e : error) : M A := fun _ => Err e.

Definition lift {A} (e : error) (o : option A) : M A :=
  match o with Some a => ret a | None => raise e end.

Notation "x <- m ;; k" := (bind m (fun x => k))
  (at level 100, m at next level, right associativity).

(** [for x in xs: acc = body(x, acc)] *)
Fixpoint for_in {A B} (xs : list B) (body : B -> A -> M A) (acc : A) : M A :=
  match xs with
  | [] => ret acc
  | x :: xs' => acc' <- body x acc ;; for_in xs' body acc'
  end.

Definition get_value : M (array2 Q) := fun s => Ok (value s, s).

Definition read_value (i j : Z) : M Q :=
  fun s => lift IndexError (get2 (value s) i j) (log_read i j s).
Definition write_value (i j : Z) (x : Q) : M unit :=
  fun s => match set2 (value s) i j x with
           | Some v => Ok (tt, set_value v s)
           | None => Err IndexError
           end.
Definition read_policy (i j : Z) : M Z :=
  fun s => lift IndexError (get2 (policy s) i j) s.
Definition write_policy (i j : Z) (a : Z) : M unit :=
  fun s => match set2 (policy s) i j a with
           | Some p => Ok (tt, set_policy p s)
           | None => Err IndexError
           end.

Section Program.
Context {P : Params} {SP : Scipy}.

(** [actions = np.arange(-MAX_MOVE_OF_CARS, MAX_MOVE_OF_CARS + 1)] *)
Definition actions : list Z := arange (- MAX_MOVE_OF_CARS) (MAX_MOVE_OF_CARS + 1).

(** ** Probability cache *)

Definition cache_key (n lam : Z) : Z := n * 10 + lam.

Definition poisson_probability (n lam : Z) : M Q := fun s =>
  let key := cache_key n lam in
  let s1 :=
    match poisson_cache s !! key with
    | None => set_poisson_cache (<[key := poisson_pmf n lam]> (poisson_cache s)) s
    | Some _ => s
    end in
  lift KeyError (poisson_cache s1 !! key) s1.

(** ** Expected return *)

Definition expected_return (state : Z * Z) (action : Z)
    (constant_returned_cars : bool) : M Q :=
  let returns := 0%Q in
  let returns := (returns - inject_Z (MOVE_CAR_COST * Z.abs action))%Q in
  let NUM_OF_CARS_FIRST_LOC := Z.min (fst state - action) MAX_CARS in
  let NUM_OF_CARS_SECOND_LOC := Z.min (snd state + action) MAX_CARS in
  for_in (range POISSON_UPPER_BOUND) (fun rental_request_first_loc returns =>
    for_in (range POISSON_UPPER_BOUND) (fun rental_request_second_loc returns =>
      p1 <- poisson_probability rental_request_first_loc RENTAL_REQUEST_FIRST_LOC ;;
      p2 <- poisson_probability rental_request_second_loc RENTAL_REQUEST_SECOND_LOC ;;
      let prob := (p1 * p2)%Q in
      let num_of_cars_first_loc := NUM_OF_CARS_FIRST_LOC in
      let num_of_cars_second_loc := NUM_OF_CARS_SECOND_LOC in
      let valid_rental_first_loc := Z.min num_of_cars_first_loc rental_request_first_loc in
      let valid_rental_second_loc := Z.min num_of_cars_second_loc rental_request_second_loc in
      let reward := (valid_rental_first_loc + valid_rental_second_loc) * RENTAL_CREDIT in
      let num_of_cars_first_loc := num_of_cars_first_loc - valid_rental_first_loc in
      let num_of_cars_second_loc := num_of_cars_second_loc - valid_rental_second_loc in
      if constant_returned_cars then
        let returned_cars_first_loc := RETURNS_FIRST_LOC in
        let returned_cars_second_loc := RETURNS_SECOND_LOC in
        let num_of_cars_first_loc :=
          Z.min (num_of_cars_first_loc + returned_cars_first_loc) MAX_CARS in
        let num_of_cars_second_loc :=
          Z.min (num_of_cars_second_loc + returned_cars_second_loc) MAX_CARS in
        v <- read_value num_of_cars_first_loc num_of_cars_second_loc ;;
        ret (returns + prob * (inject_Z reward + DISCOUNT * v))%Q
      else
        for_in (range POISSON_UPPER_BOUND) (fun returned_cars_first_loc returns =>
          for_in (range POISSON_UPPER_BOUND) (fun returned_cars_second_loc returns =>
            q1 <- poisson_probability returned_cars_first_loc RETURNS_FIRST_LOC ;;
            q2 <- poisson_probability returned_cars_second_loc RETURNS_SECOND_LOC ;;
            let prob_return := (q1 * q2)%Q in
            let num_of_cars_first_loc_ :=
              Z.min (num_of_cars_first_loc + returned_cars_first_loc) MAX_CARS in
            let num_of_cars_second_loc_ :=
              Z.min (num_of_cars_second_loc + returned_cars_second_loc) MAX_CARS in
            let prob_ := (prob_return * prob)%Q in
            v <- read_value num_of_cars_first_loc_ num_of_cars_second_loc_ ;;
            ret (returns + prob_ * (inject_Z reward + DISCOUNT * v))%Q)
          returns)
        returns)
      returns)
    returns.

(** ** Policy evaluation (in place) *)

(** One sweep through all states following the current policy. *)
Definition evaluation_sweep (constant_returned_cars : bool) : M unit :=
  for_in (range (MAX_CARS + 1)) (fun i _ =>
    for_in (range (MAX_CARS + 1)) (fun j _ =>
      a <- read_policy i j ;;
      new_state_value <- expected_return (i, j) a constant_returned_cars ;;
      write_value i j new_state_value)
    tt)
  tt.

(** The body of the [while True] loop up to [max_value_change]. *)
Definition evaluation_iteration (constant_returned_cars : bool) : M Q :=
  old_value <- get_value ;;
  _ <- evaluation_sweep constant_returned_cars ;;
  new_value <- get_value ;;
  lift ValueError (np_max (abs_diff old_value new_value)).

(** [1e-4] *)
Definition threshold : Q := 1 # 10000.

Fixpoint policy_evaluation (fuel : nat) (constant_returned_cars : bool) : M unit :=
  match fuel with
  | O => raise OutOfFuel
  | S fuel' =>
    max_value_change <- evaluation_iteration constant_returned_cars ;;
    if Qlt_le_dec max_value_change threshold then ret tt
    else policy_evaluation fuel' constant_returned_cars
  end.

(** ** Policy improvement *)

(** [(0 <= action <= i) or (-j <= action <= 0)] *)
Definition legal (i j action : Z) : bool :=
  ((0 <=? action) && (action <=? i)) || ((- j <=? action) && (action <=? 0)).

(** The list [action_returns] built for state [(i, j)]. *)
Definition action_returns (i j : Z) (constant_returned_cars : bool) : M (list efloat) :=
  for_in actions (fun action action_returns =>
    if legal i j action then
      r <- expected_return (i, j) action constant_returned_cars ;;
      ret (action_returns ++ [Fin r])
    else
      ret (action_returns ++ [NegInf]))
  [].

(** The body of the improvement loop for state [(i, j)]. *)
Definition improve_state (i j : Z) (constant_returned_cars : bool)
    (policy_stable : bool) : M bool :=
  old_action <- read_policy i j ;;
  rs <- action_returns i j constant_returned_cars ;;
  k <- lift ValueError (np_argmax rs) ;;
  new_action <- lift IndexError (actions !! k) ;;
  _ <- write_policy i j new_action ;;
  ret (if policy_stable && negb (old_action =? new_action) then false
       else policy_stable).

Definition policy_improvement (constant_returned_cars : bool) : M bool :=
  for_in (range (MAX_CARS + 1)) (fun i policy_stable =>
    for_in (range (MAX_CARS + 1)) (fun j policy_stable =>
      improve_state i j constant_returned_cars policy_stable)
    policy_stable)
  true.

(** ** The outer loop *)

Fixpoint policy_iteration (fuel eval_fuel : nat) (constant_returned_cars : bool) : M unit :=
  match fuel with
  | O => raise OutOfFuel
  | S fuel' =>
    _ <- policy_evaluation eval_fuel constant_returned_cars ;;
    policy_stable <- policy_improvement constant_returned_cars ;;
    if policy_stable then ret tt
    else policy_iteration fuel' eval_fuel constant_returned_cars
  end.

Definition initial_store : store := {|
  value := zeros 0%Q (MAX_CARS + 1);
  policy := zeros 0 (MAX_CARS + 1);
  poisson_cache := ∅;
  read_log := []
|}.

End Program.

(** ** A rational stand-in for the Poisson mass function

    [lam^n / n!] normalised over the counts [0..10]; it is used to run the
    model on concrete inputs. *)
Definition zfact (n : Z) : Z := fold_right Z.mul 1 (map (Z.add 1) (range n)).

Definition poisson_weight (n lam : Z) : Z :=
  if (0 <=? n) && (n <=? 10) then lam ^ n * (zfact 10 / zfact n) else 0.

Definition rational_pmf (n lam : Z) : Q :=
  Qred (poisson_weight n lam # Z.to_pos (fold_right Z.add 0 (map (fun k => poisson_weight k lam) (range 11)))).

Definition rational_scipy : Scipy := {| poisson_pmf := rational_pmf |}.

(** ** Notions used to state the properties *)

(** A square [n] x [n] array. *)
Definition shape2 {A} (n : Z) (arr : array2 A) : Prop :=
  Z.of_nat (length arr) = n /\ Forall (fun row => Z.of_nat (length row) = n) arr.

(** [arr[i, j]] where the subscript is known to be valid. *)
Definition at2 {A} (d : A) (arr : array2 A) (i j : Z) : A := default d (get2 arr i j).

(** Total correctness of a computation: from every store that satisfies
    [pre] it returns a result, and result and final store satisfy [post]. *)
Definition hoare {A} (pre : store -> Prop) (m : M A) (post : A -> store -> Prop) : Prop :=
  forall s, pre s -> exists a s', m s = Ok (a, s') /\ post a s'.

(** The result of running a computation, when it returns one. *)
Definition result_of {A} (m : M A) (s : store) : option A :=
  match m s with Ok (a, _) => Some a | Err _ => None end.

(** [sum_over xs f] is the sum of [f x] for [x] in [xs]. *)
Definition sum_over (xs : list Z) (f : Z -> Q) : Q :=
  fold_right (fun x acc => (f x + acc)%Q) 0%Q xs.

(** An in-place sweep over the positions [ps] of an array: position [p] is
    overwritten with [f arr p], computed from the array as it is then. *)
Definition sweep_step {A} (f : array2 A -> Z * Z -> A) (arr : array2 A) (p : Z * Z) : array2 A :=
  default arr (set2 arr (fst p) (snd p) (f arr p)).

Definition sweep_fold {A} (f : array2 A -> Z * Z -> A) (ps : list (Z * Z)) (arr : array2 A) :
    array2 A :=
  fold_left (sweep_step f) ps arr.

(** A valid index pair of an [n] x [n] array. *)
Definition inside (n : Z) (p : Z * Z) : Prop := 0 <= fst p < n /\ 0 <= snd p < n.

(** Row-major order on index pairs. *)
Definition row_major_lt (p q : Z * Z) : Prop :=
  fst p < fst q \/ (fst p = fst q /\ snd p < snd q).

Section Specification.
Context {P : Params} {SP : Scipy}.

(** What the notebook assumes of its constants: non-negative sizes, and
    rates below 10 (the comment on [poisson_cache]). *)
Definition wf_params : Prop :=
  0 <= MAX_CARS /\ 0 <= MAX_MOVE_OF_CARS /\
  0 <= RENTAL_REQUEST_FIRST_LOC < 10 /\ 0 <= RENTAL_REQUEST_SECOND_LOC < 10 /\
  0 <= RETURNS_FIRST_LOC < 10 /\ 0 <= RETURNS_SECOND_LOC < 10.

(** Every entry of the cache under the key of a pair [(n, lam)] with
    [0 <= n] and [0 <= lam < 10] is the mass of [n] under [lam]. *)
Definition cache_ok (c : gmap Z Q) : Prop :=
  forall n lam v, 0 <= n -> 0 <= lam < 10 ->
    c !! cache_key n lam = Some v -> v = poisson_pmf n lam.

(** A valid index pair of the value table. *)
Definition in_table (p : Z * Z) : Prop :=
  0 <= fst p <= MAX_CARS /\ 0 <= snd p <= MAX_CARS.

(** All states in the order of the two nested [range(MAX_CARS + 1)] loops. *)
Definition states : list (Z * Z) :=
  flat_map (fun i => map (pair i) (range (MAX_CARS + 1))) (range (MAX_CARS + 1)).

(** The loops of [expected_return] as a pure function of the value table,
    with [poisson_pmf] in place of the cache. *)
Definition expected_return_fold (V : array2 Q) (state : Z * Z) (action : Z)
    (constant_returned_cars : bool) : Q :=
  let NUM_OF_CARS_FIRST_LOC := Z.min (fst state - action) MAX_CARS in
  let NUM_OF_CARS_SECOND_LOC := Z.min (snd state + action) MAX_CARS in
  fold_left (fun returns r1 =>
    fold_left (fun returns r2 =>
      let prob := (poisson_pmf r1 RENTAL_REQUEST_FIRST_LOC *
                   poisson_pmf r2 RENTAL_REQUEST_SECOND_LOC)%Q in
      let valid1 := Z.min NUM_OF_CARS_FIRST_LOC r1 in
      let valid2 := Z.min NUM_OF_CARS_SECOND_LOC r2 in
      let reward := (valid1 + valid2) * RENTAL_CREDIT in
      let n1 := NUM_OF_CARS_FIRST_LOC - valid1 in
      let n2 := NUM_OF_CARS_SECOND_LOC - valid2 in
      if constant_returned_cars then
        (returns + prob * (inject_Z reward + DISCOUNT *
           at2 0%Q V (Z.min (n1 + RETURNS_FIRST_LOC) MAX_CARS)
                     (Z.min (n2 + RETURNS_SECOND_LOC) MAX_CARS)))%Q
      else
        fold_left (fun returns u1 =>
          fold_left (fun returns u2 =>
            let prob_return := (poisson_pmf u1 RETURNS_FIRST_LOC *
                                poisson_pmf u2 RETURNS_SECOND_LOC)%Q in
            (returns + (prob_return * prob) * (inject_Z reward + DISCOUNT *
               at2 0%Q V (Z.min (n1 + u1) MAX_CARS) (Z.min (n2 + u2) MAX_CARS)))%Q)
          (range POISSON_UPPER_BOUND) returns)
        (range POISSON_UPPER_BOUND) returns)
    (range POISSON_UPPER_BOUND) returns)
  (range POISSON_UPPER_BOUND) (0 - inject_Z (MOVE_CAR_COST * Z.abs action))%Q.

(** *** The expected return as the specification words it *)

(** Cars at the two locations after the overnight move. *)
Definition post_move (state : Z * Z) (a : Z) : Z * Z :=
  (Z.min (fst state - a) MAX_CARS, Z.min (snd state + a) MAX_CARS).

(** Reward plus discounted value of the next state, for requests [(r1, r2)]
    and returns [(u1, u2)]. *)
Definition outcome (V : array2 Q) (state : Z * Z) (a r1 r2 u1 u2 : Z) : Q :=
  let c1 := fst (post_move state a) in
  let c2 := snd (post_move state a) in
  let valid1 := Z.min c1 r1 in
  let valid2 := Z.min c2 r2 in
  let reward := (valid1 + valid2) * RENTAL_CREDIT in
  (inject_Z reward + DISCOUNT *
     at2 0%Q V (Z.min (c1 - valid1 + u1) MAX_CARS) (Z.min (c2 - valid2 + u2) MAX_CARS))%Q.

Definition expected_return_spec (V : array2 Q) (state : Z * Z) (a : Z)
    (simplify_returns : bool) : Q :=
  let N := range POISSON_UPPER_BOUND in
  (- inject_Z (MOVE_CAR_COST * Z.abs a) +
   sum_over N (fun r1 => sum_over N (fun r2 =>
     poisson_pmf r1 RENTAL_REQUEST_FIRST_LOC * poisson_pmf r2 RENTAL_REQUEST_SECOND_LOC *
     (if simplify_returns then
        outcome V state a r1 r2 RETURNS_FIRST_LOC RETURNS_SECOND_LOC
      else
        sum_over N (fun u1 => sum_over N (fun u2 =>
          poisson_pmf u1 RETURNS_FIRST_LOC * poisson_pmf u2 RETURNS_SECOND_LOC *
          outcome V state a r1 r2 u1 u2))))))%Q.

(** *** Invariant of the store

    The tables hold [V] and [pol]; the reads of [value] logged since [log0]
    were all inside the table; and, when [G] holds, the cache is
    consistent. *)
Definition inv (G : Prop) (V : array2 Q) (pol : array2 Z) (log0 : list (Z * Z))
    (s : store) : Prop :=
  value s = V /\ policy s = pol /\
  (exists new, read_log s = log0 ++ new /\ Forall in_table new) /\
  (G -> cache_ok (poisson_cache s)).

(** The invariant of the driver: both tables have the shape
    [(MAX_CARS + 1) x (MAX_CARS + 1)] and the cache is consistent. *)
Definition store_ok (s : store) : Prop :=
  shape2 (MAX_CARS + 1) (value s) /\ shape2 (MAX_CARS + 1) (policy s) /\
  cache_ok (poisson_cache s).

(** What the improvement loop appends to [action_returns] for action [a]
    at state [(i, j)], evaluated in the store [s]. *)
Definition evaluated_return (i j : Z) (flag : bool) (s : store) (a : Z) : option efloat :=
  if legal i j a then Fin <$> result_of (expected_return (i, j) a flag) s
  else Some NegInf.

(** The result of [expected_return] when [RENTAL_CREDIT] is [c]. *)
Definition expected_return_with_credit (c : Z) (state : Z * Z) (a : Z) (flag : bool)
    (s : store) : option Q :=
  result_of (@expected_return (with_rental_credit P c) SP state a flag) s.

(** The entry of [action_returns] for one action. *)
Definition score (V : array2 Q) (i j : Z) (flag : bool) (a : Z) : efloat :=
  if legal i j a then Fin (expected_return_fold V (i, j) a flag) else NegInf.

(** The greedy action for state [(i, j)] under the value table [V]. *)
Definition greedy (V : array2 Q) (flag : bool) (p : Z * Z) : Z :=
  default 0 (k ← np_argmax (map (score V (fst p) (snd p) flag) actions); actions !! k).

(** The value written for state [p] by an evaluation sweep. *)
Definition backup (pol : array2 Z) (flag : bool) (V : array2 Q) (p : Z * Z) : Q :=
  expected_return_fold V p (at2 0 pol (fst p) (snd p)) flag.

(** [n + 1] iterations of the evaluation loop; the result is the last
    [max_value_change]. *)
Fixpoint iterations (n : nat) (flag : bool) : M Q :=
  match n with
  | O => evaluation_iteration flag
  | S n' => _ <- evaluation_iteration flag ;; iterations n' flag
  end.

End Specification.

(** ** Notions used to state further properties *)

(** A computation that is transparent to memoisation: it changes neither
    table, only adds entries to the cache, and run again on the same value
    table with a cache that has at least the entries it left, it returns the
    same result and leaves the cache as it finds it. *)
Definition replays {A} (m : M A) : Prop :=
  forall s r s', m s = Ok (r, s') ->
    value s' = value s /\ policy s' = policy s /\
    poisson_cache s ⊆ poisson_cache s' /\
    forall t, value t = value s -> poisson_cache s' ⊆ poisson_cache t ->
      exists t', m t = Ok (r, t') /\ poisson_cache t' = poisson_cache t /\
                 value t' = value t.

(** A computation that reads the value table exactly [k] times when it
    returns. *)
Definition reads_exactly {A} (k : nat) (m : M A) : Prop :=
  forall s r s', m s = Ok (r, s') ->
    length (read_log s') = (length (read_log s) + k)%nat.

Section FurtherNotions.
Context {P : Params} {SP : Scipy}.

(** The probability mass of the counts below [POISSON_UPPER_BOUND] under
    the rate [lam]: what the loops of [expected_return] sum over. *)
Definition truncated_mass (lam : Z) : Q :=
  sum_over (range POISSON_UPPER_BOUND) (fun n => poisson_pmf n lam).

(** The total weight [expected_return] gives to the value table. *)
Definition total_mass (flag : bool) : Q :=
  (truncated_mass RENTAL_REQUEST_FIRST_LOC * truncated_mass RENTAL_REQUEST_SECOND_LOC *
   (if flag then 1
    else truncated_mass RETURNS_FIRST_LOC * truncated_mass RETURNS_SECOND_LOC))%Q.

End FurtherNotions.

Section DriverNotions.
Context {P : Params} {SP : Scipy}.

(** Every entry of the policy table is an action of [actions] that is
    feasible for its state. *)
Definition policy_legal (s : store) : Prop :=
  forall i j, in_table (i, j) ->
    exists a, get2 (policy s) i j = Some a /\ legal i j a = true /\
              - MAX_MOVE_OF_CARS <= a <= MAX_MOVE_OF_CARS.

(** The body of the improvement loop on the pair of the policy table and
    [policy_stable]. *)
Definition improve_step (V : array2 Q) (flag : bool) (Tb : array2 Z * bool)
    (p : Z * Z) : array2 Z * bool :=
  (sweep_step (fun _ => greedy V flag) (fst Tb) p,
   if snd Tb && negb (at2 0 (fst Tb) (fst p) (snd p) =? greedy V flag p) then false
   else snd Tb).

End DriverNotions.

(** ** A small deterministic environment

    Two cars at most per location, one car moved at most, no discounting,
    and a mass function under which the count equals the rate for certain.
    Policy iteration on it can be run to the end inside the proof assistant. *)
Definition small_lot : Params := {|
  MAX_CARS := 2;
  MAX_MOVE_OF_CARS := 1;
  RENTAL_REQUEST_FIRST_LOC := 1;
  RENTAL_REQUEST_SECOND_LOC := 1;
  RETURNS_FIRST_LOC := 1;
  RETURNS_SECOND_LOC := 1;
  DISCOUNT := 0;
  RENTAL_CREDIT := 10;
  MOVE_CAR_COST := 2;
  POISSON_UPPER_BOUND := 3
|}.

Definition certain_scipy : Scipy :=
  {| poisson_pmf := fun n lam => if n =? lam then 1%Q else 0%Q |}.

Section ConvergenceNotions.
Context {P : Params}.

(** Two value tables that differ by at most [M] at every state. *)
Definition within (M : Q) (V V' : array2 Q) : Prop :=
  forall i j, in_table (i, j) -> (Qabs (at2 0%Q V i j - at2 0%Q V' i j) <= M)%Q.

End ConvergenceNotions.

(** [g] to the power [n]. *)
Fixpoint qpow (g : Q) (n : nat) : Q :=
  match n with
  | O => 1%Q
  | S n' => (g * qpow g n')%Q
  end.

(** ** A mis-configured environment

    The notebook's constants with a negative number of returned cars at the
    first location: a configuration that makes a subscript of the value table
    negative. *)
Definition negative_returns : Params := {|
  MAX_CARS := 20;
  MAX_MOVE_OF_CARS := 5;
  RENTAL_REQUEST_FIRST_LOC := 3;
  RENTAL_REQUEST_SECOND_LOC := 4;
  RETURNS_FIRST_LOC := -1;
  RETURNS_SECOND_LOC := 2;
  DISCOUNT := 9 # 10;
  RENTAL_CREDIT := 10;
  MOVE_CAR_COST := 2;
  POISSON_UPPER_BOUND := 11
|}.

Section CacheNotions.
Context {SP : Scipy}.

(** A sequence of calls [poisson_probability(n, lam)], one per pair of the
    list, in order. *)
Definition requests (reqs : list (Z * Z)) : M unit :=
  for_in reqs (fun nl _ => _ <- poisson_probability (fst nl) (snd nl) ;; ret tt) tt.

End CacheNotions.

(** The arguments for which the key is meant: a count [n >= 0] and a rate
    [0 <= lam < 10]. *)
Definition in_key_domain (nl : Z * Z) : Prop := 0 <= fst nl /\ 0 <= snd nl < 10.

(** * Proofs *)

(** ** Ranges *)

Lemma elem_of_range x n : x ∈ range n <-> 0 <= x < n.
Proof.
  unfold range. rewrite list_elem_of_In, in_map_iff. split.
  - intros (k & <- & Hk). apply in_seq in Hk. lia.
  - intros Hx. exists (Z.to_nat x). split; [lia|]. apply in_seq. lia.
Qed.

Lemma range_lookup n (k : nat) : (Z.of_nat k < n) -> range n !! k = Some (Z.of_nat k).
Proof.
  intros Hk. unfold range.
  change (map Z.of_nat (seq 0 (Z.to_nat n))) with (Z.of_nat <$> seq 0 (Z.to_nat n)).
  rewrite list_lookup_fmap, lookup_seq_lt by lia. reflexivity.
Qed.

Lemma length_range n : length (range n) = Z.to_nat n.
Proof. unfold range. now rewrite length_map, length_seq. Qed.

Lemma NoDup_range n : NoDup (range n).
Proof.
  unfold range. change (map ?f ?l) with (f <$> l).
  apply NoDup_fmap_2; [intros a b; lia | apply NoDup_seq].
Qed.

Lemma elem_of_arange x lo hi : x ∈ arange lo hi <-> lo <= x < hi.
Proof.
  unfold arange. rewrite list_elem_of_In, in_map_iff. split.
  - intros (k & <- & Hk). apply list_elem_of_In, elem_of_range in Hk. lia.
  - intros Hx. exists (x - lo). split; [lia|].
    apply list_elem_of_In, elem_of_range. lia.
Qed.

Lemma arange_lookup lo hi (k : nat) :
  lo + Z.of_nat k < hi -> arange lo hi !! k = Some (lo + Z.of_nat k).
Proof.
  intros Hk. unfold arange.
  change (map ?f ?l) with (f <$> l).
  rewrite list_lookup_fmap, range_lookup by lia. reflexivity.
Qed.

Lemma length_arange lo hi : length (arange lo hi) = Z.to_nat (hi - lo).
Proof. unfold arange. now rewrite length_map, length_range. Qed.

(** ** Two-dimensional arrays *)

Lemma norm_index_in n i : 0 <= i < Z.of_nat n -> norm_index n i = Some (Z.to_nat i).
Proof.
  intros Hi. unfold norm_index.
  destruct (Z.leb_spec 0 i), (Z.ltb_spec i (Z.of_nat n)); simpl; try lia. reflexivity.
Qed.

Lemma norm_index_out n i :
  Z.of_nat n <= i \/ i < - Z.of_nat n -> norm_index n i = None.
Proof.
  intros Hi. unfold norm_index.
  destruct (Z.leb_spec 0 i), (Z.ltb_spec i (Z.of_nat n)); cbn [andb]; try lia;
    destruct (Z.leb_spec (- Z.of_nat n) i), (Z.ltb_spec i 0); cbn [andb]; try lia;
    reflexivity.
Qed.

Lemma get2_lookup {A} (arr : array2 A) n i j :
  shape2 n arr -> 0 <= i < n -> 0 <= j < n ->
  exists row x, arr !! Z.to_nat i = Some row /\ row !! Z.to_nat j = Some x /\
                Z.of_nat (length row) = n /\ get2 arr i j = Some x.
Proof.
  intros [Hlen Hrows] Hi Hj. unfold get2.
  rewrite norm_index_in by lia.
  destruct (lookup_lt_is_Some_2 arr (Z.to_nat i)) as [row Hrow]; [lia|].
  assert (Hr : Z.of_nat (length row) = n).
  { rewrite Forall_forall in Hrows. apply Hrows.
    eapply list_elem_of_lookup_2, Hrow. }
  destruct (lookup_lt_is_Some_2 row (Z.to_nat j)) as [x Hx]; [lia|].
  exists row, x. cbv beta iota. rewrite Hrow. cbv beta iota.
  rewrite norm_index_in by lia. auto.
Qed.

Lemma get2_is_Some {A} (arr : array2 A) n i j :
  shape2 n arr -> 0 <= i < n -> 0 <= j < n -> is_Some (get2 arr i j).
Proof.
  intros Hs Hi Hj. destruct (get2_lookup arr n i j Hs Hi Hj) as (? & x & ? & ? & ? & ?).
  now exists x.
Qed.

Lemma get2_at2 {A} (d : A) (arr : array2 A) n i j :
  shape2 n arr -> 0 <= i < n -> 0 <= j < n -> get2 arr i j = Some (at2 d arr i j).
Proof.
  intros Hs Hi Hj. unfold at2.
  destruct (get2_is_Some arr n i j Hs Hi Hj) as [x ->]. reflexivity.
Qed.

Lemma set2_spec {A} (arr : array2 A) n i j x :
  shape2 n arr -> 0 <= i < n -> 0 <= j < n ->
  exists arr', set2 arr i j x = Some arr' /\ shape2 n arr' /\
    get2 arr' i j = Some x /\
    forall a b, 0 <= a < n -> 0 <= b < n -> (a, b) <> (i, j) -> get2 arr' a b = get2 arr a b.
Proof.
  intros Hs Hi Hj.
  destruct (get2_lookup arr n i j Hs Hi Hj) as (row & y & Hrow & Hy & Hr & _).
  destruct Hs as [Hlen Hrows].
  unfold set2. rewrite norm_index_in by lia. cbv beta iota.
  rewrite Hrow. cbv beta iota. rewrite norm_index_in by lia.
  eexists. split; [reflexivity|].
  assert (Hs' : shape2 n (<[Z.to_nat i := <[Z.to_nat j := x]> row]> arr)).
  { split.
    - now rewrite length_insert.
    - rewrite Forall_forall in *. intros r Hin.
      apply list_elem_of_lookup_1 in Hin. destruct Hin as [k Hk].
      destruct (decide (k = Z.to_nat i)) as [->|Hne].
      + rewrite list_lookup_insert_eq in Hk by lia. injection Hk as <-.
        now rewrite length_insert.
      + rewrite list_lookup_insert_ne in Hk by congruence.
        apply Hrows. eapply list_elem_of_lookup_2, Hk. }
  split; [exact Hs'|]. split.
  - unfold get2. rewrite length_insert, norm_index_in by lia. cbv beta iota.
    rewrite list_lookup_insert_eq by lia. cbv beta iota.
    rewrite length_insert, norm_index_in by lia.
    rewrite list_lookup_insert_eq by lia. reflexivity.
  - intros a b Ha Hb Hne. unfold get2.
    rewrite length_insert, !norm_index_in by lia. cbv beta iota.
    destruct (decide (Z.to_nat a = Z.to_nat i)) as [Heq|Hne'].
    + rewrite Heq, list_lookup_insert_eq, Hrow by lia. cbv beta iota.
      rewrite length_insert, !norm_index_in by lia.
      rewrite list_lookup_insert_ne; [reflexivity|].
      intros Hjb. apply Hne. f_equal; lia.
    + rewrite list_lookup_insert_ne by congruence. reflexivity.
Qed.

Lemma shape2_zeros {A} (z : A) n : 0 <= n -> shape2 n (zeros z n).
Proof.
  intros Hn. unfold zeros. split.
  - rewrite repeat_length. lia.
  - apply Forall_forall. intros row Hin. apply list_elem_of_In, repeat_spec in Hin. subst row.
    rewrite repeat_length. lia.
Qed.

(** ** Rules of the program logic *)

Lemma hoare_ret {A} (pre : store -> Prop) (a : A) (post : A -> store -> Prop) :
  (forall s, pre s -> post a s) -> hoare pre (ret a) post.
Proof. intros H s Hs. exists a, s. split; [reflexivity|auto]. Qed.

Lemma hoare_bind {A B} (pre : store -> Prop) (m : M A) (mid : A -> store -> Prop)
    (k : A -> M B) (post : B -> store -> Prop) :
  hoare pre m mid -> (forall a, hoare (mid a) (k a) post) -> hoare pre (bind m k) post.
Proof.
  intros Hm Hk s Hs. destruct (Hm s Hs) as (a & s1 & Hrun & Hmid).
  destruct (Hk a s1 Hmid) as (b & s2 & Hrun2 & Hpost).
  exists b, s2. unfold bind. rewrite Hrun. auto.
Qed.

Lemma hoare_conseq {A} (pre pre' : store -> Prop) (m : M A) (post post' : A -> store -> Prop) :
  hoare pre' m post' -> (forall s, pre s -> pre' s) ->
  (forall a s, post' a s -> post a s) -> hoare pre m post.
Proof.
  intros H Hpre Hpost s Hs. destruct (H s (Hpre s Hs)) as (a & s' & ? & ?).
  exists a, s'. auto.
Qed.

Lemma hoare_pure {A} (F : Prop) (pre : store -> Prop) (m : M A) (post : A -> store -> Prop) :
  (F -> hoare pre m post) -> hoare (fun s => pre s /\ F) m post.
Proof. intros H s [Hs HF]. exact (H HF s Hs). Qed.

(** A [for] loop that simulates the fold of [step] over its list. *)
Lemma hoare_for_in {A B T} (I : T -> A -> store -> Prop) (step : T -> B -> T)
    (xs : list B) (body : B -> A -> M A) :
  (forall x t acc, x ∈ xs -> hoare (I t acc) (body x acc) (fun acc' => I (step t x) acc')) ->
  forall t acc, hoare (I t acc) (for_in xs body acc) (fun acc' => I (fold_left step xs t) acc').
Proof.
  induction xs as [|x xs IH]; intros Hbody t acc; simpl.
  - apply hoare_ret. auto.
  - eapply hoare_bind.
    + apply Hbody. left.
    + intros acc'. apply IH. intros y t' acc'' Hy. apply Hbody. now right.
Qed.

Lemma hoare_run {A} (pre : store -> Prop) (m : M A) (post : A -> store -> Prop) s a s' :
  hoare pre m post -> pre s -> m s = Ok (a, s') -> post a s'.
Proof.
  intros H Hs Hrun. destruct (H s Hs) as (a' & s'' & Hrun' & Hpost).
  rewrite Hrun in Hrun'. injection Hrun' as <- <-. exact Hpost.
Qed.

(** ** The probability cache *)

Lemma cache_key_inj n lam n' lam' :
  0 <= lam < 10 -> 0 <= lam' < 10 ->
  cache_key n lam = cache_key n' lam' -> n = n' /\ lam = lam'.
Proof. unfold cache_key. lia. Qed.

Section ExpectedReturn.
Context {P : Params} {SP : Scipy}.
Variable G : Prop.
Variables (V : array2 Q) (pol : array2 Z) (log0 : list (Z * Z)).
Hypothesis Hwf : wf_params.
Hypothesis HV : shape2 (MAX_CARS + 1) V.

Lemma cache_ok_insert c n lam :
  0 <= lam < 10 -> cache_ok c ->
  cache_ok (<[cache_key n lam := poisson_pmf n lam]> c).
Proof.
  intros Hlam Hc n' lam' v Hn' Hlam' Hlook.
  destruct (decide (cache_key n lam = cache_key n' lam')) as [Heq|Hne].
  - rewrite Heq, lookup_insert_eq in Hlook. injection Hlook as <-.
    apply cache_key_inj in Heq; [|assumption..]. destruct Heq as [-> ->]. reflexivity.
  - rewrite lookup_insert_ne in Hlook by assumption. eauto.
Qed.

Lemma poisson_probability_spec n lam :
  0 <= n -> 0 <= lam < 10 ->
  hoare (inv G V pol log0) (poisson_probability n lam)
        (fun p s => inv G V pol log0 s /\ (G -> p = poisson_pmf n lam)).
Proof.
  intros Hn Hlam s (HsV & Hpol & Hlog & Hc).
  unfold poisson_probability. cbv zeta.
  destruct (poisson_cache s !! cache_key n lam) as [v|] eqn:E.
  - rewrite E. exists v, s. split; [reflexivity|]. split.
    + unfold inv. auto 10.
    + intros HG. eapply Hc; eauto.
  - cbn [poisson_cache set_poisson_cache]. rewrite lookup_insert_eq.
    eexists _, _. split; [reflexivity|]. split; [|reflexivity].
    unfold inv. cbn. repeat (split; [assumption|]).
    intros HG. apply cache_ok_insert; auto.
Qed.

Lemma read_value_spec i j :
  in_table (i, j) ->
  hoare (inv G V pol log0) (read_value i j)
        (fun v s => inv G V pol log0 s /\ v = at2 0%Q V i j).
Proof.
  intros [Hi Hj] s (HsV & Hpol & (new & Hlog & Hnew) & Hc).
  cbn in Hi, Hj. unfold read_value. cbn [value log_read].
  rewrite HsV, (get2_at2 0%Q V (MAX_CARS + 1)) by (assumption || lia).
  eexists _, _. split; [reflexivity|]. split; [|reflexivity].
  unfold inv. cbn. repeat (split; [assumption|]). split; [|assumption].
  exists (new ++ [(i, j)]). rewrite Hlog, app_assoc. split; [reflexivity|].
  apply Forall_app. split; [assumption|]. repeat constructor; cbn; lia.
Qed.

(** Whatever the count before the move, the count after rentals and
    returns is a valid index. *)
Lemma next_count_in_table c r u :
  0 <= r -> 0 <= u ->
  0 <= Z.min (Z.min c MAX_CARS - Z.min (Z.min c MAX_CARS) r + u) MAX_CARS <= MAX_CARS.
Proof. destruct Hwf as (? & _). lia. Qed.

(** [expected_return] returns, leaves the tables alone, reads [value]
    only inside the table and, with a consistent cache, computes
    [expected_return_fold]. *)
Lemma expected_return_refines state action flag :
  hoare (inv G V pol log0) (expected_return state action flag)
        (fun r s => inv G V pol log0 s /\
                    (G -> r = expected_return_fold V state action flag)).
Proof.
  destruct Hwf as (HM & HMv & Hr1 & Hr2 & Hu1 & Hu2).
  unfold expected_return, expected_return_fold. cbv zeta.
  pose (I := fun (t acc : Q) (s : store) => inv G V pol log0 s /\ (G -> acc = t)).
  assert (Hstart : forall (t : Q) s, inv G V pol log0 s -> I t t s)
    by (intros t s Hs; split; [exact Hs|reflexivity]).
  destruct flag.
  - eapply hoare_conseq; [|apply Hstart|intros a s Ha; exact Ha].
    apply (hoare_for_in I).
    intros r1 t acc Hr1in. apply elem_of_range in Hr1in.
    apply (hoare_for_in I). intros r2 t2 acc2 Hr2in. apply elem_of_range in Hr2in.
    apply hoare_pure. intros Hacc.
    eapply hoare_bind; [apply poisson_probability_spec; lia|].
    intros p1. apply hoare_pure. intros Hp1.
    eapply hoare_bind; [apply poisson_probability_spec; lia|].
    intros p2. apply hoare_pure. intros Hp2.
    eapply hoare_bind.
    { apply read_value_spec. split; cbn; apply next_count_in_table; lia. }
    intros v. apply hoare_pure. intros ->. apply hoare_ret.
    intros s Hs. split; [exact Hs|]. intros HG.
    rewrite (Hacc HG), (Hp1 HG), (Hp2 HG). reflexivity.
  - eapply hoare_conseq; [|apply Hstart|intros a s Ha; exact Ha].
    apply (hoare_for_in I).
    intros r1 t acc Hr1in. apply elem_of_range in Hr1in.
    apply (hoare_for_in I). intros r2 t2 acc2 Hr2in. apply elem_of_range in Hr2in.
    apply hoare_pure. intros Hacc.
    eapply hoare_bind; [apply poisson_probability_spec; lia|].
    intros p1. apply hoare_pure. intros Hp1.
    eapply hoare_bind; [apply poisson_probability_spec; lia|].
    intros p2. apply hoare_pure. intros Hp2.
    eapply hoare_conseq with (pre' := I t2 acc2);
      [|intros s Hs; split; [exact Hs|exact Hacc] | intros a s Ha; exact Ha].
    apply (hoare_for_in I).
    intros u1 t3 acc3 Hu1in. apply elem_of_range in Hu1in.
    apply (hoare_for_in I). intros u2 t4 acc4 Hu2in. apply elem_of_range in Hu2in.
    apply hoare_pure. intros Hacc4.
    eapply hoare_bind; [apply poisson_probability_spec; lia|].
    intros q1. apply hoare_pure. intros Hq1.
    eapply hoare_bind; [apply poisson_probability_spec; lia|].
    intros q2. apply hoare_pure. intros Hq2.
    eapply hoare_bind.
    { apply read_value_spec. split; cbn; apply next_count_in_table; lia. }
    intros v. apply hoare_pure. intros ->. apply hoare_ret.
    intros s Hs. split; [exact Hs|]. intros HG.
    rewrite (Hacc4 HG), (Hq1 HG), (Hq2 HG), (Hp1 HG), (Hp2 HG). reflexivity.
Qed.

End ExpectedReturn.

(** ** Sums *)

Lemma fold_left_sum_over (h : Q -> Z -> Q) (f : Z -> Q) xs a :
  (forall acc x, x ∈ xs -> (h acc x == acc + f x)%Q) ->
  (fold_left h xs a == a + sum_over xs f)%Q.
Proof.
  revert a. induction xs as [|x xs IH]; intros a H; simpl.
  - ring.
  - rewrite IH by (intros acc y Hy; apply H; now right).
    rewrite H by left. ring.
Qed.

Lemma sum_over_ext (f g : Z -> Q) xs :
  (forall x, x ∈ xs -> (f x == g x)%Q) -> (sum_over xs f == sum_over xs g)%Q.
Proof.
  induction xs as [|x xs IH]; intros H; simpl.
  - reflexivity.
  - rewrite IH by (intros y Hy; apply H; now right).
    rewrite (H x) by left. reflexivity.
Qed.

Lemma sum_over_scale (c : Q) (f : Z -> Q) xs :
  (sum_over xs (fun x => c * f x) == c * sum_over xs f)%Q.
Proof.
  induction xs as [|x xs IH]; simpl.
  - ring.
  - rewrite IH. ring.
Qed.

Lemma sum_over_nonneg (f : Z -> Q) xs :
  (forall x, x ∈ xs -> (0 <= f x)%Q) -> (0 <= sum_over xs f)%Q.
Proof.
  induction xs as [|x xs IH]; intros H; simpl.
  - apply Qle_refl.
  - assert (0 <= f x)%Q by (apply H; left).
    assert (0 <= sum_over xs f)%Q by (apply IH; intros y Hy; apply H; now right).
    lra.
Qed.

Lemma sum_over_le (f g : Z -> Q) xs :
  (forall x, x ∈ xs -> (f x <= g x)%Q) -> (sum_over xs f <= sum_over xs g)%Q.
Proof.
  induction xs as [|x xs IH]; intros H; simpl.
  - apply Qle_refl.
  - assert (f x <= g x)%Q by (apply H; left).
    assert (sum_over xs f <= sum_over xs g)%Q by (apply IH; intros y Hy; apply H; now right).
    lra.
Qed.

Section FoldSpec.
Context {P : Params} {SP : Scipy}.

(** The accumulating loops compute the sum of the specification. *)
Lemma expected_return_fold_spec V state a flag :
  (expected_return_fold V state a flag == expected_return_spec V state a flag)%Q.
Proof.
  unfold expected_return_fold, expected_return_spec. cbv zeta.
  rewrite fold_left_sum_over with
    (f := fun r1 => sum_over (range POISSON_UPPER_BOUND) (fun r2 =>
       (poisson_pmf r1 RENTAL_REQUEST_FIRST_LOC * poisson_pmf r2 RENTAL_REQUEST_SECOND_LOC *
        (if flag then outcome V state a r1 r2 RETURNS_FIRST_LOC RETURNS_SECOND_LOC
         else sum_over (range POISSON_UPPER_BOUND) (fun u1 =>
                sum_over (range POISSON_UPPER_BOUND) (fun u2 =>
                  poisson_pmf u1 RETURNS_FIRST_LOC * poisson_pmf u2 RETURNS_SECOND_LOC *
                  outcome V state a r1 r2 u1 u2))))%Q)).
  - ring.
  - intros acc r1 _. apply fold_left_sum_over. intros acc2 r2 _.
    destruct flag.
    + reflexivity.
    + rewrite fold_left_sum_over with
        (f := fun u1 => sum_over (range POISSON_UPPER_BOUND) (fun u2 =>
           (poisson_pmf r1 RENTAL_REQUEST_FIRST_LOC * poisson_pmf r2 RENTAL_REQUEST_SECOND_LOC *
            (poisson_pmf u1 RETURNS_FIRST_LOC * poisson_pmf u2 RETURNS_SECOND_LOC *
             outcome V state a r1 r2 u1 u2))%Q)).
      * apply Qplus_inj_l.
        rewrite <- sum_over_scale. apply sum_over_ext. intros u1 _.
        rewrite <- sum_over_scale. reflexivity.
      * intros acc3 u1 _. apply fold_left_sum_over. intros acc4 u2 _.
        unfold outcome, post_move. cbn [fst snd]. ring.
Qed.

End FoldSpec.

(** ** Consequences for [expected_return] *)

Section ExpectedReturnFacts.
Context {P : Params} {SP : Scipy}.
Hypothesis Hwf : wf_params.

Lemma inv_start (G : Prop) s :
  (G -> cache_ok (poisson_cache s)) -> inv G (value s) (policy s) (read_log s) s.
Proof.
  intros Hc. unfold inv. repeat (split; [reflexivity|]). split; [|exact Hc].
  exists []. rewrite app_nil_r. auto.
Qed.

Lemma cache_ok_empty : cache_ok ∅.
Proof. intros n lam v _ _ H. rewrite lookup_empty in H. discriminate. Qed.

(** With any cache: the call returns, changes neither table, and reads
    [value] inside the table only. *)
Lemma expected_return_total state a flag s :
  shape2 (MAX_CARS + 1) (value s) ->
  exists r s', expected_return state a flag s = Ok (r, s') /\
    value s' = value s /\ policy s' = policy s /\
    exists new, read_log s' = read_log s ++ new /\ Forall in_table new.
Proof.
  intros Hs.
  destruct (expected_return_refines False (value s) (policy s) (read_log s) Hwf Hs
              state a flag s) as (r & s' & Hrun & (HV & Hp & Hlog & _) & _).
  { apply inv_start. intros []. }
  exists r, s'. auto.
Qed.

(** With a consistent cache the result is the pure fold, and the cache
    stays consistent. *)
Lemma expected_return_run state a flag s :
  shape2 (MAX_CARS + 1) (value s) -> cache_ok (poisson_cache s) ->
  exists s', expected_return state a flag s =
               Ok (expected_return_fold (value s) state a flag, s') /\
    value s' = value s /\ policy s' = policy s /\ cache_ok (poisson_cache s').
Proof.
  intros Hs Hc.
  destruct (expected_return_refines True (value s) (policy s) (read_log s) Hwf Hs
              state a flag s) as (r & s' & Hrun & (HV & Hp & Hlog & Hc') & Hr).
  { apply inv_start. auto. }
  exists s'. rewrite <- (Hr Logic.I). auto.
Qed.

End ExpectedReturnFacts.

(** ** In-place sweeps over an array *)

Lemma fold_left_flat_map {A B C} (g : A -> C -> A) (h : B -> list C) xs a :
  fold_left g (flat_map h xs) a = fold_left (fun a x => fold_left g (h x) a) xs a.
Proof.
  revert a. induction xs as [|x xs IH]; intros a; simpl; [reflexivity|].
  now rewrite fold_left_app, IH.
Qed.

Lemma fold_left_map {A B C} (g : A -> C -> A) (h : B -> C) xs a :
  fold_left g (map h xs) a = fold_left (fun a x => g a (h x)) xs a.
Proof. revert a. induction xs as [|x xs IH]; intros a; simpl; auto. Qed.

Lemma fold_left_ext_in {A B} (g g' : A -> B -> A) xs a :
  (forall a x, x ∈ xs -> g a x = g' a x) -> fold_left g xs a = fold_left g' xs a.
Proof.
  revert a. induction xs as [|x xs IH]; intros a H; simpl; [reflexivity|].
  rewrite H by left. apply IH. intros ? ? ?. apply H. now right.
Qed.

Section Sweep.
Context {A : Type} (f : array2 A -> Z * Z -> A) (n : Z).

Local Abbreviation inside := (inside n).

Lemma sweep_step_spec arr p :
  shape2 n arr -> inside p ->
  shape2 n (sweep_step f arr p) /\
  get2 (sweep_step f arr p) (fst p) (snd p) = Some (f arr p) /\
  forall q, inside q -> q <> p ->
    get2 (sweep_step f arr p) (fst q) (snd q) = get2 arr (fst q) (snd q).
Proof.
  intros Hs [Hi Hj]. unfold sweep_step.
  destruct (set2_spec arr n (fst p) (snd p) (f arr p) Hs Hi Hj)
    as (arr' & -> & Hs' & Hget & Hother).
  cbn. split; [exact Hs'|]. split; [exact Hget|].
  intros q [Hqi Hqj] Hne. apply Hother; [assumption..|].
  destruct p, q. cbn. congruence.
Qed.

Lemma sweep_fold_shape ps arr :
  shape2 n arr -> Forall inside ps -> shape2 n (sweep_fold f ps arr).
Proof.
  revert arr. induction ps as [|p ps IH]; intros arr Hs Hin; cbn; [exact Hs|].
  inversion Hin; subst. apply IH; [|assumption].
  now apply sweep_step_spec.
Qed.

(** Positions that are not swept keep their content. *)
Lemma sweep_fold_other ps arr q :
  shape2 n arr -> Forall inside ps -> inside q -> q ∉ ps ->
  get2 (sweep_fold f ps arr) (fst q) (snd q) = get2 arr (fst q) (snd q).
Proof.
  revert arr. induction ps as [|p ps IH]; intros arr Hs Hin Hq Hnotin; cbn; [reflexivity|].
  inversion Hin; subst.
  destruct (sweep_step_spec arr p Hs) as (Hs' & _ & Hother); [assumption|].
  change (fold_left (sweep_step f) ps (sweep_step f arr p))
    with (sweep_fold f ps (sweep_step f arr p)).
  rewrite IH; [|assumption..|].
  - apply Hother; [assumption|]. intros ->. apply Hnotin. left.
  - intros Hq'. apply Hnotin. now right.
Qed.

Lemma sweep_fold_app ps qs arr :
  sweep_fold f (ps ++ qs) arr = sweep_fold f qs (sweep_fold f ps arr).
Proof. unfold sweep_fold. apply fold_left_app. Qed.

(** The content of a swept position is computed from the array as it is
    after the positions before it have been swept: on those it has their
    final content, everywhere else the initial one. *)
Lemma sweep_fold_at ps arr pre p post :
  shape2 n arr -> Forall inside ps -> NoDup ps -> ps = pre ++ p :: post ->
  let T := sweep_fold f pre arr in
  shape2 n T /\
  get2 (sweep_fold f ps arr) (fst p) (snd p) = Some (f T p) /\
  (forall q, inside q -> q ∈ pre ->
     get2 T (fst q) (snd q) = get2 (sweep_fold f ps arr) (fst q) (snd q)) /\
  (forall q, inside q -> q ∉ pre ->
     get2 T (fst q) (snd q) = get2 arr (fst q) (snd q)).
Proof.
  intros Hs Hin Hnd -> T.
  apply Forall_app in Hin. destruct Hin as [Hpre Hrest].
  apply NoDup_app in Hnd. destruct Hnd as (Hnd1 & Hdisj & Hnd2).
  assert (HT : shape2 n T) by now apply sweep_fold_shape.
  inversion Hrest as [|? ? Hp Hpost]; subst.
  apply NoDup_cons in Hnd2. destruct Hnd2 as [Hp_post _].
  destruct (sweep_step_spec T p HT Hp) as (Hs' & Hget & Hother).
  split; [exact HT|]. split; [|split].
  - rewrite sweep_fold_app. fold T. cbn.
    change (fold_left (sweep_step f) post (sweep_step f T p))
      with (sweep_fold f post (sweep_step f T p)).
    rewrite sweep_fold_other; assumption.
  - intros q Hq Hqpre. rewrite sweep_fold_app. fold T.
    symmetry. apply sweep_fold_other; [assumption..|].
    apply Hdisj. exact Hqpre.
  - intros q Hq Hqpre. apply sweep_fold_other; assumption.
Qed.

End Sweep.

(** ** The order of the states *)

Global Instance row_major_lt_trans : Transitive row_major_lt.
Proof. intros p q r. unfold row_major_lt. lia. Qed.

Lemma row_major_lt_irrefl p : ~ row_major_lt p p.
Proof. unfold row_major_lt. lia. Qed.

Lemma StronglySorted_range n : StronglySorted Z.lt (range n).
Proof.
  unfold range. change (map ?f ?l) with (f <$> l).
  apply StronglySorted_fmap with (R1 := lt).
  - intros a b. lia.
  - apply Sorted_StronglySorted; [intros a b c; lia|].
    generalize 0%nat. induction (Z.to_nat n) as [|k IH]; intros m; cbn.
    + constructor.
    + constructor; [apply IH|]. destruct k; cbn; constructor. lia.
Qed.

Section States.
Context {P : Params}.

Lemma elem_of_states p : p ∈ states <-> in_table p.
Proof.
  unfold states, in_table. rewrite list_elem_of_In, in_flat_map. split.
  - intros (i & Hi & Hp). apply in_map_iff in Hp. destruct Hp as (j & <- & Hj).
    apply list_elem_of_In, elem_of_range in Hi, Hj. cbn. lia.
  - intros [Hi Hj]. destruct p as [i j]. cbn in *. exists i. split.
    + apply list_elem_of_In, elem_of_range. lia.
    + apply in_map. apply list_elem_of_In, elem_of_range. lia.
Qed.

Lemma StronglySorted_states : StronglySorted row_major_lt states.
Proof.
  unfold states.
  pose proof (StronglySorted_range (MAX_CARS + 1)) as Hcols. revert Hcols.
  generalize (range (MAX_CARS + 1)) at 1 2. intros cols Hcols.
  pose proof (StronglySorted_range (MAX_CARS + 1)) as Hrows.
  induction Hrows as [|i rows Hrows IH Hi]; cbn; [constructor|].
  apply StronglySorted_app_2; [| |exact IH].
  - intros p q Hp Hq.
    change (map ?f ?l) with (f <$> l) in Hp.
    apply list_elem_of_fmap in Hp. destruct Hp as (j & -> & _).
    apply list_elem_of_In, in_flat_map in Hq. destruct Hq as (i' & Hi' & Hq).
    apply in_map_iff in Hq. destruct Hq as (j' & <- & _).
    rewrite Forall_forall in Hi. left. cbn. apply Hi. now apply list_elem_of_In.
  - change (map ?f ?l) with (f <$> l).
    apply StronglySorted_fmap with (R1 := Z.lt); [|exact Hcols].
    intros j j' Hj. right. cbn. lia.
Qed.

Lemma NoDup_states : NoDup states.
Proof.
  pose proof StronglySorted_states as H.
  induction H as [|p ps Hps IH Hp]; constructor; [|exact IH].
  intros Hin. rewrite Forall_forall in Hp.
  exact (row_major_lt_irrefl p (Hp p Hin)).
Qed.

Lemma Forall_inside_states : Forall (inside (MAX_CARS + 1)) states.
Proof.
  apply Forall_forall. intros p Hp. apply elem_of_states in Hp.
  destruct Hp. unfold inside. lia.
Qed.

(** The states before [p] in the sweep are those smaller in row-major
    order. *)
Lemma states_split p :
  in_table p ->
  exists pre post, states = pre ++ p :: post /\
    forall q, q ∈ pre <-> in_table q /\ row_major_lt q p.
Proof.
  intros Hp. apply elem_of_states, list_elem_of_split in Hp.
  destruct Hp as (pre & post & Heq). exists pre, post. split; [exact Heq|].
  pose proof StronglySorted_states as Hsorted. rewrite Heq in Hsorted.
  intros q. split.
  - intros Hq. split.
    + apply elem_of_states. rewrite Heq. apply elem_of_app. now left.
    + eapply StronglySorted_app_1_elem_of; [exact Hsorted|exact Hq|left].
  - intros [Hq Hlt]. apply elem_of_states in Hq. rewrite Heq in Hq.
    apply elem_of_app in Hq. destruct Hq as [Hq|Hq]; [exact Hq|].
    exfalso. apply StronglySorted_app_1_r in Hsorted.
    apply StronglySorted_cons in Hsorted. destruct Hsorted as [Hall _].
    apply elem_of_cons in Hq. destruct Hq as [->|Hq].
    + exact (row_major_lt_irrefl p Hlt).
    + rewrite Forall_forall in Hall.
      exact (row_major_lt_irrefl p (transitivity (Hall q Hq) Hlt)).
Qed.

End States.

(** ** The driver *)

Section Driver.
Context {P : Params} {SP : Scipy}.
Hypothesis Hwf : wf_params.

Lemma in_table_inside p : in_table p <-> inside (MAX_CARS + 1) p.
Proof. unfold in_table, inside. lia. Qed.

Lemma read_policy_spec G V pol log0 i j :
  shape2 (MAX_CARS + 1) pol -> in_table (i, j) ->
  hoare (inv G V pol log0) (read_policy i j)
        (fun a s => inv G V pol log0 s /\ a = at2 0 pol i j).
Proof.
  intros Hpol [Hi Hj] s Hs. cbn in Hi, Hj. unfold read_policy.
  destruct Hs as (HV & Hp & Hrest).
  rewrite Hp, (get2_at2 0 pol (MAX_CARS + 1)) by (assumption || lia).
  eexists _, _. split; [reflexivity|]. split; [|reflexivity].
  unfold inv. auto.
Qed.

Lemma write_value_spec G V pol log0 i j x :
  shape2 (MAX_CARS + 1) V -> in_table (i, j) ->
  hoare (inv G V pol log0) (write_value i j x)
        (fun _ s => inv G (default V (set2 V i j x)) pol log0 s).
Proof.
  intros HV [Hi Hj] s (HsV & Hp & Hrest). cbn in Hi, Hj. unfold write_value.
  rewrite HsV.
  destruct (set2_spec V (MAX_CARS + 1) i j x HV) as (V' & -> & _); [lia..|].
  eexists _, _. split; [reflexivity|]. unfold inv. cbn. auto.
Qed.

Lemma write_policy_spec G V pol log0 i j a :
  shape2 (MAX_CARS + 1) pol -> in_table (i, j) ->
  hoare (inv G V pol log0) (write_policy i j a)
        (fun _ s => inv G V (default pol (set2 pol i j a)) log0 s).
Proof.
  intros Hpol [Hi Hj] s (HsV & Hp & Hrest). cbn in Hi, Hj. unfold write_policy.
  rewrite Hp.
  destruct (set2_spec pol (MAX_CARS + 1) i j a Hpol) as (pol' & -> & _); [lia..|].
  eexists _, _. split; [reflexivity|]. unfold inv. cbn. auto.
Qed.

(** The two nested loops over the states visit [states] in order. *)
Lemma fold_left_states {T} (g : T -> Z * Z -> T) t :
  fold_left (fun t i => fold_left (fun t j => g t (i, j)) (range (MAX_CARS + 1)) t)
            (range (MAX_CARS + 1)) t
  = fold_left g states t.
Proof.
  unfold states. rewrite fold_left_flat_map.
  apply fold_left_ext_in. intros a i _. now rewrite fold_left_map.
Qed.

(** An evaluation sweep is the in-place sweep of [backup] over [states]. *)
Lemma evaluation_sweep_refines V pol log0 flag :
  shape2 (MAX_CARS + 1) V -> shape2 (MAX_CARS + 1) pol ->
  hoare (inv True V pol log0) (evaluation_sweep flag)
        (fun _ s => inv True (sweep_fold (backup pol flag) states V) pol log0 s /\
                    shape2 (MAX_CARS + 1) (sweep_fold (backup pol flag) states V)).
Proof.
  intros HV Hpol. unfold evaluation_sweep.
  pose (I := fun (T : array2 Q) (_ : unit) (s : store) =>
               inv True T pol log0 s /\ shape2 (MAX_CARS + 1) T).
  eapply hoare_conseq with (pre' := I V tt)
    (post' := fun acc => I (fold_left (sweep_step (backup pol flag)) states V) acc).
  - rewrite <- fold_left_states.
    apply (hoare_for_in I). intros i T [] Hi. apply elem_of_range in Hi.
    apply (hoare_for_in I (fun T j => sweep_step (backup pol flag) T (i, j))).
    intros j T2 acc2 Hj. apply elem_of_range in Hj.
    assert (Hin : in_table (i, j)) by (split; cbn; lia).
    apply hoare_pure. intros HT2.
    eapply hoare_bind; [now apply read_policy_spec|].
    intros a. apply hoare_pure. intros ->.
    eapply hoare_bind; [apply expected_return_refines; assumption|].
    intros r. apply hoare_pure. intros Hr. rewrite (Hr Logic.I).
    eapply hoare_conseq;
      [apply (write_value_spec True T2 pol log0 i j _ HT2 Hin)|auto|].
    intros u s Hs. split; [exact Hs|].
    apply sweep_step_spec; [assumption|]. now apply in_table_inside.
  - intros s Hs. split; assumption.
  - intros a s Hs. exact Hs.
Qed.

End Driver.

(** ** [np.argmax] and [max] *)

Lemma eltb_spec x y : eltb x y = true <-> elt x y.
Proof.
  destruct x as [|a], y as [|b]; cbn; try (split; [discriminate|tauto]); try tauto.
  rewrite negb_true_iff, <- not_true_iff_false, Qle_bool_iff.
  split; [apply Qnot_le_lt|apply Qlt_not_le].
Qed.

Lemma elt_irrefl x : ~ elt x x.
Proof. destruct x; cbn; [tauto|apply Qlt_irrefl]. Qed.

Lemma elt_trans x y z : elt x y -> elt y z -> elt x z.
Proof. destruct x, y, z; cbn; try tauto. apply Qlt_trans. Qed.

Lemma ele_elt_trans x y z : ele x y -> elt y z -> elt x z.
Proof.
  unfold ele. destruct x, y, z; cbn; try tauto.
  intros H1 H2. apply Qnot_lt_le in H1. eapply Qle_lt_trans; eauto.
Qed.

Lemma elt_ele x y : elt x y -> ele x y.
Proof. intros H H'. exact (elt_irrefl x (elt_trans _ _ _ H H')). Qed.

Lemma NegInf_elt_Fin q : elt NegInf (Fin q).
Proof. exact Logic.I. Qed.

Lemma argmax_from_spec pre best_i best xs :
  pre !! best_i = Some best ->
  (forall m y, pre !! m = Some y -> ele y best) ->
  (forall m y, (m < best_i)%nat -> pre !! m = Some y -> elt y best) ->
  exists x, (pre ++ xs) !! argmax_from best_i best (length pre) xs = Some x /\
    (forall m y, (pre ++ xs) !! m = Some y -> ele y x) /\
    (forall m y, (m < argmax_from best_i best (length pre) xs)%nat ->
       (pre ++ xs) !! m = Some y -> elt y x).
Proof.
  revert pre best_i best. induction xs as [|x xs IH]; intros pre best_i best Hb Hle Hlt.
  - cbn. rewrite app_nil_r. eauto.
  - cbn [argmax_from]. replace (pre ++ x :: xs) with ((pre ++ [x]) ++ xs)
      by now rewrite <- app_assoc.
    replace (S (length pre)) with (length (pre ++ [x]))
      by (rewrite length_app; cbn; lia).
    destruct (eltb best x) eqn:E.
    + apply eltb_spec in E.
      apply IH.
      * now apply list_lookup_middle.
      * intros m y Hm. apply lookup_app_Some in Hm. destruct Hm as [Hm|[_ Hm]].
        -- apply elt_ele. eapply ele_elt_trans; eauto.
        -- apply list_lookup_singleton_Some in Hm. destruct Hm as [_ <-].
           apply elt_irrefl.
      * intros m y Hmlt Hm. apply lookup_app_Some in Hm. destruct Hm as [Hm|[Hge Hm]].
        -- eapply ele_elt_trans; eauto.
        -- lia.
    + assert (Hnlt : ~ elt best x) by (rewrite <- eltb_spec; congruence).
      apply IH.
      * apply lookup_app_l_Some. exact Hb.
      * intros m y Hm. apply lookup_app_Some in Hm. destruct Hm as [Hm|[_ Hm]].
        -- eauto.
        -- apply list_lookup_singleton_Some in Hm. destruct Hm as [_ <-]. exact Hnlt.
      * intros m y Hmlt Hm. apply lookup_app_Some in Hm. destruct Hm as [Hm|[Hge Hm]].
        -- eauto.
        -- apply lookup_lt_Some in Hb. lia.
Qed.

(** [np.argmax] returns the first position that holds a maximum. *)
Lemma np_argmax_spec xs k :
  np_argmax xs = Some k ->
  exists x, xs !! k = Some x /\
    (forall m y, xs !! m = Some y -> ele y x) /\
    (forall m y, (m < k)%nat -> xs !! m = Some y -> elt y x).
Proof.
  destruct xs as [|x xs]; [discriminate|]. cbn. intros [= <-].
  apply (argmax_from_spec [x] 0%nat x xs).
  - reflexivity.
  - intros m y Hm. apply list_lookup_singleton_Some in Hm. destruct Hm as [_ <-].
    apply elt_irrefl.
  - intros m y Hm. lia.
Qed.

Lemma np_argmax_is_Some xs : xs <> [] -> is_Some (np_argmax xs).
Proof. destruct xs; [congruence|]. cbn. eauto. Qed.

Lemma qmax_cases a b : (qmax a b = b /\ (a <= b)%Q) \/ (qmax a b = a /\ (b <= a)%Q).
Proof.
  unfold qmax. destruct (Qle_bool a b) eqn:E.
  - left. split; [reflexivity|]. now apply Qle_bool_iff.
  - right. split; [reflexivity|].
    apply Qlt_le_weak, Qnot_le_lt. rewrite <- Qle_bool_iff. congruence.
Qed.

Lemma fold_qmax_spec xs a :
  (fold_left qmax xs a = a \/ fold_left qmax xs a ∈ xs) /\
  (a <= fold_left qmax xs a)%Q /\ forall x, x ∈ xs -> (x <= fold_left qmax xs a)%Q.
Proof.
  revert a. induction xs as [|x xs IH]; intros a; cbn.
  - split; [now left|]. split; [apply Qle_refl|]. intros x Hx. inversion Hx.
  - destruct (IH (qmax a x)) as (Hmem & Hge & Hall).
    destruct (qmax_cases a x) as [[Hq Hle]|[Hq Hle]]; rewrite Hq in *.
    + split; [|split].
      * right. destruct Hmem as [->|Hmem]; [left|now right].
      * eapply Qle_trans; eauto.
      * intros y Hy. apply elem_of_cons in Hy. destruct Hy as [->|Hy]; auto.
    + split; [|split].
      * destruct Hmem as [->|Hmem]; [now left|right; now right].
      * exact Hge.
      * intros y Hy. apply elem_of_cons in Hy. destruct Hy as [->|Hy]; auto.
        eapply Qle_trans; eauto.
Qed.

(** [max] returns an element of the array that bounds all the others. *)
Lemma np_max_spec xs d :
  np_max xs = Some d -> d ∈ xs /\ forall x, x ∈ xs -> (x <= d)%Q.
Proof.
  destruct xs as [|a xs]; [discriminate|]. cbn. intros [= <-].
  destruct (fold_qmax_spec xs a) as (Hmem & Hge & Hall). split.
  - destruct Hmem as [->|Hmem]; [left|now right].
  - intros x Hx. apply elem_of_cons in Hx. destruct Hx as [->|Hx]; auto.
Qed.

(** ** Policy improvement *)

Lemma legal_spec i j a : legal i j a = true <-> (0 <= a <= i) \/ (- j <= a <= 0).
Proof. unfold legal. lia. Qed.

Lemma fold_left_snoc_map {A B} (g : A -> B) xs acc :
  fold_left (fun acc x => acc ++ [g x]) xs acc = acc ++ map g xs.
Proof.
  revert acc. induction xs as [|x xs IH]; intros acc; cbn.
  - now rewrite app_nil_r.
  - rewrite IH, <- app_assoc. reflexivity.
Qed.

Lemma hoare_lift {A} (pre : store -> Prop) e (o : option A) a :
  o = Some a -> hoare pre (lift e o) (fun x s => pre s /\ x = a).
Proof. intros ->. cbn. apply hoare_ret. auto. Qed.

Section Improvement.
Context {P : Params} {SP : Scipy}.
Hypothesis Hwf : wf_params.

Lemma elem_of_actions a : a ∈ actions <-> - MAX_MOVE_OF_CARS <= a <= MAX_MOVE_OF_CARS.
Proof. unfold actions. rewrite elem_of_arange. lia. Qed.

Lemma actions_lookup (k : nat) a :
  actions !! k = Some a <->
  a = - MAX_MOVE_OF_CARS + Z.of_nat k /\ Z.of_nat k <= 2 * MAX_MOVE_OF_CARS.
Proof.
  unfold actions. split.
  - intros Hk. pose proof (lookup_lt_Some _ _ _ Hk) as Hlt.
    rewrite length_arange in Hlt.
    rewrite arange_lookup in Hk by lia. injection Hk as <-. lia.
  - intros [-> Hk]. apply arange_lookup. lia.
Qed.

Lemma actions_nonempty : actions <> [].
Proof.
  destruct Hwf as (_ & HM & _). intros Heq.
  assert (H : actions !! 0%nat = Some (- MAX_MOVE_OF_CARS + Z.of_nat 0))
    by (apply actions_lookup; lia).
  rewrite Heq in H. discriminate.
Qed.

(** The greedy action is a first maximiser of [score] over [actions], and
    it is legal because action [0] is legal and has a finite score. *)
Lemma greedy_spec V flag i j :
  0 <= i -> 0 <= j ->
  exists k, np_argmax (map (score V i j flag) actions) = Some k /\
    actions !! k = Some (greedy V flag (i, j)) /\
    legal i j (greedy V flag (i, j)) = true /\
    (forall a, a ∈ actions -> ele (score V i j flag a) (score V i j flag (greedy V flag (i, j)))) /\
    (forall a, a ∈ actions -> a < greedy V flag (i, j) ->
       elt (score V i j flag a) (score V i j flag (greedy V flag (i, j)))).
Proof.
  intros Hi Hj. destruct Hwf as (_ & HM & _).
  destruct (np_argmax_is_Some (map (score V i j flag) actions)) as [k Hk].
  { intros Heq. apply map_eq_nil in Heq. now apply actions_nonempty. }
  destruct (np_argmax_spec _ _ Hk) as (x & Hx & Hmax & Hfirst).
  change (map ?f ?l) with (f <$> l) in Hx, Hmax, Hfirst.
  rewrite list_lookup_fmap in Hx.
  destruct (actions !! k) as [a|] eqn:Ha; [|discriminate]. cbn in Hx. injection Hx as <-.
  assert (Hg : greedy V flag (i, j) = a).
  { unfold greedy. cbn [fst snd]. rewrite Hk. cbn. now rewrite Ha. }
  rewrite Hg. exists k. split; [exact Hk|]. split; [exact Ha|].
  assert (Hle : forall a', a' ∈ actions -> ele (score V i j flag a') (score V i j flag a)).
  { intros a' Ha'. apply list_elem_of_lookup_1 in Ha'. destruct Ha' as [m Hm].
    apply (Hmax m). rewrite list_lookup_fmap, Hm. reflexivity. }
  split; [|split; [exact Hle|]].
  - assert (H0 : 0 ∈ actions) by (apply elem_of_actions; lia).
    apply Hle in H0. unfold score in H0.
    replace (legal i j 0) with true in H0 by (symmetry; apply legal_spec; lia).
    destruct (legal i j a); [reflexivity|]. exfalso. apply H0. exact Logic.I.
  - intros a' Ha' Hlt. apply list_elem_of_lookup_1 in Ha'. destruct Ha' as [m Hm].
    apply (Hfirst m).
    + apply actions_lookup in Hm, Ha. lia.
    + rewrite list_lookup_fmap, Hm. reflexivity.
Qed.

Lemma action_returns_spec V pol log0 i j flag :
  shape2 (MAX_CARS + 1) V ->
  hoare (inv True V pol log0) (action_returns i j flag)
        (fun rs s => inv True V pol log0 s /\ rs = map (score V i j flag) actions).
Proof.
  intros HV. unfold action_returns.
  pose (I := fun (t acc : list efloat) (s : store) => inv True V pol log0 s /\ acc = t).
  eapply hoare_conseq with (pre' := I [] [])
    (post' := fun acc => I (fold_left (fun t a => t ++ [score V i j flag a]) actions []) acc).
  - apply (hoare_for_in I). intros a t acc _. apply hoare_pure. intros ->.
    unfold score. destruct (legal i j a).
    + eapply hoare_bind; [apply expected_return_refines; assumption|].
      intros r. apply hoare_pure. intros Hr. rewrite (Hr Logic.I).
      apply hoare_ret. intros s Hs. split; [exact Hs|reflexivity].
    + apply hoare_ret. intros s Hs. split; [exact Hs|reflexivity].
  - intros s Hs. split; [exact Hs|reflexivity].
  - intros rs s [Hs ->]. split; [exact Hs|]. now rewrite fold_left_snoc_map.
Qed.

(** The body of the improvement loop writes the greedy action. *)
Lemma improve_state_spec V pol log0 i j flag policy_stable :
  shape2 (MAX_CARS + 1) V -> shape2 (MAX_CARS + 1) pol -> in_table (i, j) ->
  hoare (inv True V pol log0) (improve_state i j flag policy_stable)
        (fun _ s => inv True V (sweep_step (fun _ => greedy V flag) pol (i, j)) log0 s).
Proof.
  intros HV Hpol Hin. unfold improve_state.
  destruct (greedy_spec V flag i j) as (k & Hk & Ha & _); [apply Hin..|].
  eapply hoare_bind; [now apply read_policy_spec|].
  intros old_action. apply hoare_pure. intros _.
  eapply hoare_bind; [now apply action_returns_spec|].
  intros rs. apply hoare_pure. intros ->.
  eapply hoare_bind; [apply hoare_lift, Hk|].
  intros k'. apply hoare_pure. intros ->.
  eapply hoare_bind; [apply hoare_lift, Ha|].
  intros a. apply hoare_pure. intros ->.
  eapply hoare_bind; [now apply write_policy_spec|].
  intros u. apply hoare_ret. intros s Hs. exact Hs.
Qed.

(** An improvement sweep is the in-place sweep of [greedy] over [states]. *)
Lemma policy_improvement_refines V pol log0 flag :
  shape2 (MAX_CARS + 1) V -> shape2 (MAX_CARS + 1) pol ->
  hoare (inv True V pol log0) (policy_improvement flag)
        (fun _ s => inv True V (sweep_fold (fun _ => greedy V flag) states pol) log0 s /\
                    shape2 (MAX_CARS + 1) (sweep_fold (fun _ => greedy V flag) states pol)).
Proof.
  intros HV Hpol. unfold policy_improvement.
  pose (I := fun (T : array2 Z) (_ : bool) (s : store) =>
               inv True V T log0 s /\ shape2 (MAX_CARS + 1) T).
  eapply hoare_conseq with (pre' := I pol true)
    (post' := fun acc => I (fold_left (sweep_step (fun _ => greedy V flag)) states pol) acc).
  - rewrite <- fold_left_states.
    apply (hoare_for_in I). intros i T acc Hi. apply elem_of_range in Hi.
    apply (hoare_for_in I (fun T j => sweep_step (fun _ => greedy V flag) T (i, j))).
    intros j T2 acc2 Hj. apply elem_of_range in Hj.
    assert (Hin : in_table (i, j)) by (split; cbn; lia).
    apply hoare_pure. intros HT2.
    eapply hoare_conseq; [apply (improve_state_spec V T2 log0 i j flag acc2 HV HT2 Hin)|auto|].
    intros u s Hs. split; [exact Hs|].
    apply sweep_step_spec; [assumption|]. now apply in_table_inside.
  - intros s Hs. split; assumption.
  - intros a s Hs. exact Hs.
Qed.

End Improvement.

(** ** Policy evaluation *)

Lemma get2_rows {A} (arr : array2 A) i j row x :
  0 <= i -> 0 <= j ->
  arr !! Z.to_nat i = Some row -> row !! Z.to_nat j = Some x -> get2 arr i j = Some x.
Proof.
  intros Hi Hj Hrow Hx.
  pose proof (lookup_lt_Some _ _ _ Hrow). pose proof (lookup_lt_Some _ _ _ Hx).
  unfold get2. rewrite norm_index_in by lia. cbv beta iota. rewrite Hrow. cbv beta iota.
  rewrite norm_index_in by lia. exact Hx.
Qed.

(** The entries of [abs(a - b)] are the absolute differences at the valid
    index pairs. *)
Lemma elem_of_abs_diff a b n x :
  shape2 n a -> shape2 n b ->
  x ∈ abs_diff a b <->
  exists i j, inside n (i, j) /\ x = Qabs (at2 0%Q a i j - at2 0%Q b i j).
Proof.
  intros Ha Hb. unfold abs_diff. rewrite list_elem_of_In, in_concat. split.
  - intros (row & Hrow & Hx).
    apply list_elem_of_In, list_elem_of_lookup_1 in Hrow. destruct Hrow as [i Hrow].
    apply lookup_zip_with_Some in Hrow. destruct Hrow as (ra & rb & -> & Hra & Hrb).
    apply list_elem_of_In, list_elem_of_lookup_1 in Hx. destruct Hx as [j Hx].
    apply lookup_zip_with_Some in Hx. destruct Hx as (y & z & -> & Hy & Hz).
    exists (Z.of_nat i), (Z.of_nat j).
    pose proof (lookup_lt_Some _ _ _ Hra). pose proof (lookup_lt_Some _ _ _ Hy).
    assert (Z.of_nat (length ra) = n).
    { destruct Ha as [_ Hrows]. rewrite Forall_forall in Hrows. apply Hrows.
      eapply list_elem_of_lookup_2, Hra. }
    rewrite <- (Nat2Z.id i) in Hra, Hrb. rewrite <- (Nat2Z.id j) in Hy, Hz.
    unfold at2.
    rewrite (get2_rows a _ _ ra y), (get2_rows b _ _ rb z) by (assumption || lia).
    split; [|reflexivity]. destruct Ha as [Hlen _]. unfold inside. cbn. lia.
  - intros (i & j & [Hi Hj] & ->). cbn in Hi, Hj.
    destruct (get2_lookup a n i j Ha Hi Hj) as (ra & y & Hra & Hy & _ & Hgy).
    destruct (get2_lookup b n i j Hb Hi Hj) as (rb & z & Hrb & Hz & _ & Hgz).
    unfold at2. rewrite Hgy, Hgz. cbn.
    exists (zip_with (fun x y => Qabs (x - y)) ra rb). split.
    + apply list_elem_of_In. eapply list_elem_of_lookup_2.
      apply lookup_zip_with_Some. eauto.
    + apply list_elem_of_In. eapply list_elem_of_lookup_2.
      apply lookup_zip_with_Some. eauto.
Qed.

Section Evaluation.
Context {P : Params} {SP : Scipy}.
Hypothesis Hwf : wf_params.

Lemma in_table_origin : in_table (0, 0).
Proof. destruct Hwf as (? & _). split; cbn; lia. Qed.

(** One iteration of the evaluation loop: the snapshot, the in-place
    sweep and the maximum absolute change. *)
Lemma evaluation_iteration_spec flag s :
  store_ok s ->
  exists d s', evaluation_iteration flag s = Ok (d, s') /\
    value s' = sweep_fold (backup (policy s) flag) states (value s) /\
    policy s' = policy s /\ store_ok s' /\
    np_max (abs_diff (value s) (value s')) = Some d.
Proof.
  intros (HV & Hpol & Hc).
  destruct (evaluation_sweep_refines Hwf (value s) (policy s) (read_log s) flag HV Hpol s)
    as ([] & s' & Hrun & (HV' & Hp' & _ & Hc') & Hshape).
  { apply inv_start. auto. }
  destruct (np_max (abs_diff (value s) (value s'))) as [d|] eqn:Hmax.
  - exists d, s'. split.
    { unfold evaluation_iteration, get_value, bind. rewrite Hrun. cbn.
      rewrite Hmax. reflexivity. }
    split; [exact HV'|]. split; [exact Hp'|]. split; [|exact Hmax].
    unfold store_ok. rewrite HV', Hp'. auto.
  - exfalso.
    assert (Hin : Qabs (at2 0%Q (value s) 0 0 - at2 0%Q (value s') 0 0)
                    ∈ abs_diff (value s) (value s')).
    { apply (elem_of_abs_diff _ _ (MAX_CARS + 1)); [assumption|now rewrite HV'|].
      exists 0, 0. split; [|reflexivity]. apply in_table_inside, in_table_origin. }
    destruct (abs_diff (value s) (value s')); [inversion Hin|discriminate].
Qed.

Lemma policy_evaluation_unfold fuel flag s :
  policy_evaluation (S fuel) flag s =
  match evaluation_iteration flag s with
  | Ok (d, s1) =>
    if Qlt_le_dec d threshold then Ok (tt, s1) else policy_evaluation fuel flag s1
  | Err e => Err e
  end.
Proof.
  cbn [policy_evaluation]. unfold bind.
  destruct (evaluation_iteration flag s) as [[d s1]|e]; [|reflexivity].
  destruct (Qlt_le_dec d threshold); reflexivity.
Qed.

Lemma iterations_unfold n flag s :
  iterations (S n) flag s =
  match evaluation_iteration flag s with
  | Ok (_, s1) => iterations n flag s1
  | Err e => Err e
  end.
Proof.
  cbn [iterations]. unfold bind.
  destruct (evaluation_iteration flag s) as [[d s1]|e]; reflexivity.
Qed.

(** The loop stops after the first iteration whose maximum change is
    below the threshold, and only then. *)
Lemma policy_evaluation_stops fuel flag s s' :
  policy_evaluation fuel flag s = Ok (tt, s') <->
  exists n d, (n < fuel)%nat /\ iterations n flag s = Ok (d, s') /\ (d < threshold)%Q /\
    forall m, (m < n)%nat ->
      exists d' sm, iterations m flag s = Ok (d', sm) /\ ~ (d' < threshold)%Q.
Proof.
  revert s. induction fuel as [|fuel IH]; intros s.
  - split; [discriminate|]. intros (n & d & Hn & _). lia.
  - rewrite policy_evaluation_unfold.
    destruct (evaluation_iteration flag s) as [[d s1]|e] eqn:Hit.
    + destruct (Qlt_le_dec d threshold) as [Hlt|Hge].
      * split.
        -- intros [= <-]. exists 0%nat, d. split; [lia|]. split; [exact Hit|].
           split; [exact Hlt|]. intros m Hm. lia.
        -- intros (n & d0 & Hn & Hrun & Hd0 & Hbefore). destruct n as [|n].
           ++ cbn [iterations] in Hrun. rewrite Hit in Hrun. now injection Hrun as -> ->.
           ++ destruct (Hbefore 0%nat) as (d' & sm & Hrun' & Hnot); [lia|].
              cbn [iterations] in Hrun'. rewrite Hit in Hrun'. injection Hrun' as <- <-.
              contradiction.
      * rewrite IH. split.
        -- intros (n & d0 & Hn & Hrun & Hd0 & Hbefore).
           exists (S n), d0. split; [lia|]. rewrite iterations_unfold, Hit.
           split; [exact Hrun|]. split; [exact Hd0|].
           intros [|m] Hm.
           ++ exists d, s1. split; [exact Hit|]. now apply Qle_not_lt.
           ++ rewrite iterations_unfold, Hit. apply Hbefore. lia.
        -- intros (n & d0 & Hn & Hrun & Hd0 & Hbefore). destruct n as [|n].
           ++ cbn [iterations] in Hrun. rewrite Hit in Hrun. injection Hrun as <- <-.
              exfalso. revert Hd0. now apply Qle_not_lt.
           ++ exists n, d0. split; [lia|]. rewrite iterations_unfold, Hit in Hrun.
              split; [exact Hrun|]. split; [exact Hd0|].
              intros m Hm. specialize (Hbefore (S m)).
              rewrite iterations_unfold, Hit in Hbefore. apply Hbefore. lia.
    + split; [discriminate|]. intros (n & d0 & _ & Hrun & _). destruct n as [|n].
      * cbn [iterations] in Hrun. rewrite Hit in Hrun. discriminate.
      * rewrite iterations_unfold, Hit in Hrun. discriminate.
Qed.

End Evaluation.

(** ** Runs of the driver from a store that satisfies the invariant *)

Section Runs.
Context {P : Params} {SP : Scipy}.
Hypothesis Hwf : wf_params.

Lemma store_ok_initial : store_ok initial_store.
Proof.
  destruct Hwf as (HM & _). unfold store_ok, initial_store. cbn.
  split; [apply shape2_zeros; lia|]. split; [apply shape2_zeros; lia|].
  apply cache_ok_empty.
Qed.

(** A sweep over [states]: the content written at [p] is computed from an
    array that has the new content at the states before [p] in row-major
    order and the old content at [p] and after it. *)
Lemma sweep_states_at {A} (f : array2 A -> Z * Z -> A) arr p :
  shape2 (MAX_CARS + 1) arr -> in_table p ->
  exists T, shape2 (MAX_CARS + 1) T /\
    get2 (sweep_fold f states arr) (fst p) (snd p) = Some (f T p) /\
    (forall q, in_table q -> row_major_lt q p ->
       get2 T (fst q) (snd q) = get2 (sweep_fold f states arr) (fst q) (snd q)) /\
    (forall q, in_table q -> ~ row_major_lt q p ->
       get2 T (fst q) (snd q) = get2 arr (fst q) (snd q)).
Proof.
  intros Harr Hp. destruct (states_split p Hp) as (pre & post & Heq & Hpre).
  destruct (sweep_fold_at f (MAX_CARS + 1) states arr pre p post Harr
              Forall_inside_states NoDup_states Heq) as (HT & Hget & Hbefore & Hafter).
  exists (sweep_fold f pre arr). split; [exact HT|]. split; [exact Hget|]. split.
  - intros q Hq Hlt. apply Hbefore; [now apply in_table_inside|].
    apply Hpre. auto.
  - intros q Hq Hnlt. apply Hafter; [now apply in_table_inside|].
    intros Hin. apply Hpre in Hin. tauto.
Qed.

Lemma result_of_expected_return state a flag s :
  shape2 (MAX_CARS + 1) (value s) -> cache_ok (poisson_cache s) ->
  result_of (expected_return state a flag) s =
  Some (expected_return_fold (value s) state a flag).
Proof.
  intros Hs Hc. destruct (expected_return_run Hwf state a flag s Hs Hc) as (s' & Hrun & _).
  unfold result_of. now rewrite Hrun.
Qed.

Lemma evaluated_return_score i j flag s a :
  store_ok s -> evaluated_return i j flag s a = Some (score (value s) i j flag a).
Proof.
  intros (HV & _ & Hc). unfold evaluated_return, score.
  destruct (legal i j a); [|reflexivity].
  now rewrite result_of_expected_return.
Qed.

Lemma action_returns_run i j flag s :
  store_ok s ->
  exists s', action_returns i j flag s = Ok (map (score (value s) i j flag) actions, s').
Proof.
  intros (HV & Hpol & Hc).
  destruct (action_returns_spec Hwf (value s) (policy s) (read_log s) i j flag HV s)
    as (rs & s' & Hrun & _ & ->).
  { apply inv_start. auto. }
  eauto.
Qed.

Lemma improve_state_run i j flag policy_stable s :
  store_ok s -> in_table (i, j) ->
  exists b s', improve_state i j flag policy_stable s = Ok (b, s') /\
    value s' = value s /\ store_ok s' /\
    get2 (policy s') i j = Some (greedy (value s) flag (i, j)).
Proof.
  intros (HV & Hpol & Hc) Hin.
  destruct (improve_state_spec Hwf (value s) (policy s) (read_log s) i j flag
              policy_stable HV Hpol Hin s) as (b & s' & Hrun & HV' & Hp' & _ & Hc').
  { apply inv_start. auto. }
  destruct (sweep_step_spec (fun _ => greedy (value s) flag) (MAX_CARS + 1)
              (policy s) (i, j) Hpol) as (Hshape & Hget & _).
  { now apply in_table_inside. }
  exists b, s'. split; [exact Hrun|]. split; [exact HV'|]. split.
  - unfold store_ok. rewrite HV', Hp'. auto.
  - rewrite Hp'. exact Hget.
Qed.

Lemma policy_improvement_run flag s :
  store_ok s ->
  exists b s', policy_improvement flag s = Ok (b, s') /\
    value s' = value s /\ store_ok s' /\
    forall p, in_table p -> get2 (policy s') (fst p) (snd p) = Some (greedy (value s) flag p).
Proof.
  intros (HV & Hpol & Hc).
  destruct (policy_improvement_refines Hwf (value s) (policy s) (read_log s) flag
              HV Hpol s) as (b & s' & Hrun & (HV' & Hp' & _ & Hc') & Hshape).
  { apply inv_start. auto. }
  exists b, s'. split; [exact Hrun|]. split; [exact HV'|]. split.
  - unfold store_ok. rewrite HV', Hp'. auto.
  - intros p Hp. rewrite Hp'.
    destruct (sweep_states_at (fun _ => greedy (value s) flag) (policy s) p Hpol Hp)
      as (T & _ & Hget & _).
    exact Hget.
Qed.

(** The evaluation loop keeps the invariant. *)
Lemma policy_evaluation_store_ok fuel flag s s' :
  store_ok s -> policy_evaluation fuel flag s = Ok (tt, s') ->
  store_ok s' /\ policy s' = policy s.
Proof.
  revert s. induction fuel as [|fuel IH]; intros s Hs; [discriminate|].
  rewrite policy_evaluation_unfold.
  destruct (evaluation_iteration_spec Hwf flag s Hs) as (d & s1 & -> & _ & Hp & Hs1 & _).
  destruct (Qlt_le_dec d threshold).
  - intros [= <-]. auto.
  - intros Hrun. destruct (IH s1 Hs1 Hrun) as [? Hp']. split; [assumption|congruence].
Qed.

(** Every phase of the outer loop starts from a store that satisfies the
    invariant, and so does whatever follows the loop. *)
Lemma policy_iteration_store_ok fuel eval_fuel flag s s' :
  store_ok s -> policy_iteration fuel eval_fuel flag s = Ok (tt, s') -> store_ok s'.
Proof.
  revert s. induction fuel as [|fuel IH]; intros s Hs; [discriminate|].
  cbn [policy_iteration]. unfold bind.
  destruct (policy_evaluation eval_fuel flag s) as [[[] s1]|e] eqn:Heval; [|discriminate].
  destruct (policy_evaluation_store_ok eval_fuel flag s s1 Hs Heval) as [Hs1 _].
  destruct (policy_improvement_run flag s1 Hs1) as (b & s2 & -> & _ & Hs2 & _).
  destruct b.
  - intros [= <-]. exact Hs2.
  - now apply IH.
Qed.

End Runs.

(** * The properties of the specification *)

Lemma wf_notebook : @wf_params notebook.
Proof. unfold wf_params. cbn. lia. Qed.

Lemma zfact_pos n : 0 < zfact n.
Proof.
  unfold zfact.
  assert (H : Forall (fun k => 0 < k) (map (Z.add 1) (range n))).
  { apply Forall_forall. intros k Hk.
    apply list_elem_of_In, in_map_iff in Hk. destruct Hk as (m & <- & Hm).
    apply list_elem_of_In, elem_of_range in Hm. lia. }
  induction H as [|k l Hk _ IH]; cbn [fold_right]; lia.
Qed.

Lemma rational_pmf_nonneg n lam : 0 <= n -> 0 <= lam -> (0 <= rational_pmf n lam)%Q.
Proof.
  intros Hn Hlam. unfold rational_pmf. rewrite Qred_correct.
  unfold Qle. cbn [Qnum Qden]. rewrite Z.mul_1_r. cbn [Z.mul].
  unfold poisson_weight.
  destruct ((0 <=? n) && (n <=? 10)); [|lia].
  apply Z.mul_nonneg_nonneg; [now apply Z.pow_nonneg|].
  apply Z.div_pos; [|apply zfact_pos]. pose proof (zfact_pos 10). lia.
Qed.

Section Claims.
Context {P : Params} {SP : Scipy}.

(** C1. For every state [(n1, n2)] with both components in
    [[0, MAX_CARS]], every feasible action [a] and every value table (of the
    shape of the state space, read through a consistent probability cache),
    [expected_return] returns [- MOVE_CAR_COST * |a|] plus the sum over the
    request pairs [(r1, r2)] in [[0, N) x [0, N)] of
    [P(r1; rate1) * P(r2; rate2)] times reward plus discounted value of the
    next state; with [simplify_returns] false that term is itself the sum
    over the return pairs weighted by their joint probability, with
    [simplify_returns] true the constant returns are added instead. *)
Theorem expected_return_is_expectation (state : Z * Z) (a : Z)
    (simplify_returns : bool) (s : store) :
  wf_params -> in_table state -> legal (fst state) (snd state) a = true ->
  shape2 (MAX_CARS + 1) (value s) -> cache_ok (poisson_cache s) ->
  exists r s', expected_return state a simplify_returns s = Ok (r, s') /\
    (r == expected_return_spec (value s) state a simplify_returns)%Q.
Proof.
  intros Hwf _ _ Hs Hc.
  destruct (expected_return_run Hwf state a simplify_returns s Hs Hc) as (s' & Hrun & _).
  eexists _, s'. split; [exact Hrun|]. apply expected_return_fold_spec.
Qed.

(** C6. When [expected_return] is called with a state in
    [[0, MAX_CARS] x [0, MAX_CARS]] and a feasible action, the counts after
    the move are in [[0, MAX_CARS]], the call returns (no [IndexError]), and
    every index pair at which it reads the value table, in either branch,
    lies in [[0, MAX_CARS]] in each coordinate and is a valid subscript. *)
Theorem value_reads_in_table (state : Z * Z) (a : Z) (flag : bool) (s : store) :
  wf_params -> in_table state -> legal (fst state) (snd state) a = true ->
  shape2 (MAX_CARS + 1) (value s) ->
  in_table (post_move state a) /\
  exists r s' reads, expected_return state a flag s = Ok (r, s') /\
    read_log s' = read_log s ++ reads /\
    Forall in_table reads /\
    Forall (fun p => is_Some (get2 (value s) (fst p) (snd p))) reads.
Proof.
  intros Hwf [H1 H2] Hlegal Hs. split.
  - apply legal_spec in Hlegal. destruct Hwf as (HM & _).
    unfold in_table, post_move. cbn [fst snd]. lia.
  - destruct (expected_return_total Hwf state a flag s Hs)
      as (r & s' & Hrun & _ & _ & reads & Hlog & Hreads).
    exists r, s', reads. repeat (split; [assumption|]).
    eapply Forall_impl; [exact Hreads|]. intros p [Hp1 Hp2].
    apply (get2_is_Some _ (MAX_CARS + 1)); [assumption|lia..].
Qed.


(** C8. [expected_return] never changes the value table (nor the policy
    table): the table after the call is the table before it.  Consequently
    a second invocation with the same arguments, and any invocation with
    the same arguments on the same table contents, returns the same
    result. *)
Theorem expected_return_frame (state : Z * Z) (a : Z) (flag : bool) (s : store) :
  wf_params -> shape2 (MAX_CARS + 1) (value s) ->
  exists r s', expected_return state a flag s = Ok (r, s') /\
    value s' = value s /\ policy s' = policy s /\
    (cache_ok (poisson_cache s) ->
     result_of (expected_return state a flag) s' = Some r /\
     forall s2, value s2 = value s -> cache_ok (poisson_cache s2) ->
       result_of (expected_return state a flag) s2 = Some r).
Proof.
  intros Hwf Hs.
  destruct (expected_return_total Hwf state a flag s Hs) as (r & s' & Hrun & HV & Hp & _).
  exists r, s'. repeat (split; [assumption|]). intros Hc.
  destruct (expected_return_run Hwf state a flag s Hs Hc) as (s1 & Hrun1 & _ & _ & Hc1).
  rewrite Hrun in Hrun1. injection Hrun1 as -> <-. split.
  - rewrite result_of_expected_return; [now rewrite HV|assumption|now rewrite HV|assumption].
  - intros s2 HV2 Hc2.
    rewrite result_of_expected_return; [now rewrite HV2|assumption|now rewrite HV2|assumption].
Qed.

End Claims.

(** ** The rental credit *)

Lemma Qmult_le_nonneg_l (p x y : Q) : (0 <= p -> x <= y -> p * x <= p * y)%Q.
Proof.
  intros Hp Hxy. rewrite (Qmult_comm p x), (Qmult_comm p y).
  now apply Qmult_le_compat_r.
Qed.

Section Credit.
Context {P : Params} {SP : Scipy}.
Variables (V : array2 Q) (state : Z * Z) (a : Z).
Hypothesis Hpmf : forall n lam, 0 <= n -> 0 <= lam -> (0 <= poisson_pmf n lam)%Q.
Hypothesis Hwf : wf_params.

Lemma joint_nonneg x lam y lam' :
  0 <= x -> 0 <= lam -> 0 <= y -> 0 <= lam' ->
  (0 <= poisson_pmf x lam * poisson_pmf y lam')%Q.
Proof. intros. apply Qmult_le_0_compat; apply Hpmf; assumption. Qed.

(** With non-negative counts after the move, a larger credit gives a
    larger outcome. *)
Lemma outcome_mono c1 c2 r1 r2 u1 u2 :
  0 <= fst (@post_move P state a) -> 0 <= snd (@post_move P state a) ->
  0 <= r1 -> 0 <= r2 -> c1 <= c2 ->
  (@outcome (with_rental_credit P c1) V state a r1 r2 u1 u2 <=
   @outcome (with_rental_credit P c2) V state a r1 r2 u1 u2)%Q.
Proof.
  intros H1 H2 Hr1 Hr2 Hc. unfold outcome, post_move in *.
  cbn [with_rental_credit MAX_CARS RENTAL_CREDIT DISCOUNT fst snd] in *.
  apply Qplus_le_l. rewrite <- Zle_Qle.
  apply Z.mul_le_mono_nonneg_l; lia.
Qed.

Lemma expected_return_spec_mono flag c1 c2 :
  0 <= fst (@post_move P state a) -> 0 <= snd (@post_move P state a) -> c1 <= c2 ->
  (@expected_return_spec (with_rental_credit P c1) SP V state a flag <=
   @expected_return_spec (with_rental_credit P c2) SP V state a flag)%Q.
Proof.
  intros H1 H2 Hc. destruct Hwf as (_ & _ & Hr1 & Hr2 & Hu1 & Hu2).
  unfold expected_return_spec.
  cbn [with_rental_credit MOVE_CAR_COST POISSON_UPPER_BOUND RENTAL_REQUEST_FIRST_LOC
       RENTAL_REQUEST_SECOND_LOC RETURNS_FIRST_LOC RETURNS_SECOND_LOC].
  apply Qplus_le_r.
  apply sum_over_le. intros r1 Hr1in. apply elem_of_range in Hr1in.
  apply sum_over_le. intros r2 Hr2in. apply elem_of_range in Hr2in.
  apply Qmult_le_nonneg_l; [apply joint_nonneg; lia|].
  destruct flag.
  - apply outcome_mono; (assumption || lia).
  - apply sum_over_le. intros u1 Hu1in. apply elem_of_range in Hu1in.
    apply sum_over_le. intros u2 Hu2in. apply elem_of_range in Hu2in.
    apply Qmult_le_nonneg_l; [apply joint_nonneg; lia|].
    apply outcome_mono; (assumption || lia).
Qed.

End Credit.

Section CreditOrigin.
Context {P : Params} {SP : Scipy}.
Hypothesis Hwf : wf_params.

(** At state [(0, 0)] with action [0] nothing can be rented: the outcome
    does not depend on the credit. *)
Lemma outcome_origin V c1 c2 r1 r2 u1 u2 :
  0 <= r1 -> 0 <= r2 ->
  @outcome (with_rental_credit P c1) V (0, 0) 0 r1 r2 u1 u2 =
  @outcome (with_rental_credit P c2) V (0, 0) 0 r1 r2 u1 u2.
Proof.
  intros Hr1 Hr2. destruct Hwf as (HM & _). unfold outcome, post_move.
  cbn [with_rental_credit MAX_CARS RENTAL_CREDIT DISCOUNT fst snd].
  replace (Z.min (0 - 0) MAX_CARS) with 0 by lia.
  replace (Z.min (0 + 0) MAX_CARS) with 0 by lia.
  replace (Z.min 0 r1) with 0 by lia. replace (Z.min 0 r2) with 0 by lia.
  reflexivity.
Qed.

Lemma expected_return_spec_origin V flag c1 c2 :
  (@expected_return_spec (with_rental_credit P c1) SP V (0, 0)%Z 0%Z flag ==
   @expected_return_spec (with_rental_credit P c2) SP V (0, 0)%Z 0%Z flag)%Q.
Proof.
  unfold expected_return_spec.
  cbn [with_rental_credit MOVE_CAR_COST POISSON_UPPER_BOUND RENTAL_REQUEST_FIRST_LOC
       RENTAL_REQUEST_SECOND_LOC RETURNS_FIRST_LOC RETURNS_SECOND_LOC].
  apply Qplus_inj_l.
  apply sum_over_ext. intros r1 Hr1in. apply elem_of_range in Hr1in.
  apply sum_over_ext. intros r2 Hr2in. apply elem_of_range in Hr2in.
  destruct flag.
  - rewrite (outcome_origin V c1 c2) by lia. reflexivity.
  - apply Qmult_comp; [reflexivity|]. apply sum_over_ext. intros u1 _. apply sum_over_ext. intros u2 _.
    rewrite (outcome_origin V c1 c2) by lia. reflexivity.
Qed.

End CreditOrigin.

Section MoreClaims.
Context {P : Params} {SP : Scipy}.

(** A request on a consistent cache, for arguments in the domain of the
    key. *)
Lemma poisson_probability_ok (n lam : Z) (s : store) :
  0 <= n -> 0 <= lam < 10 -> cache_ok (poisson_cache s) ->
  exists s', poisson_probability n lam s = Ok (poisson_pmf n lam, s') /\
    poisson_cache s' !! cache_key n lam = Some (poisson_pmf n lam) /\
    (forall k, k <> cache_key n lam -> poisson_cache s' !! k = poisson_cache s !! k) /\
    poisson_cache s ⊆ poisson_cache s' /\
    cache_ok (poisson_cache s') /\ value s' = value s /\ policy s' = policy s.
Proof.
  intros Hn Hlam Hc. unfold poisson_probability. cbv zeta.
  destruct (poisson_cache s !! cache_key n lam) as [v|] eqn:E.
  - rewrite E. cbn. assert (v = poisson_pmf n lam) as -> by (eapply Hc; eauto).
    exists s. auto 10.
  - cbn [poisson_cache set_poisson_cache]. rewrite lookup_insert_eq. cbn.
    eexists. split; [reflexivity|]. cbn. split; [apply lookup_insert_eq|].
    split; [intros k Hk; now apply lookup_insert_ne|].
    split; [now apply insert_subseteq|].
    split; [now apply cache_ok_insert|]. auto.
Qed.

(** A sequence of requests in the domain of the key keeps the cache
    consistent and leaves an entry for each of them. *)
Lemma requests_ok (reqs : list (Z * Z)) (s : store) :
  Forall in_key_domain reqs -> cache_ok (poisson_cache s) ->
  exists s1, requests reqs s = Ok (tt, s1) /\
    cache_ok (poisson_cache s1) /\ poisson_cache s ⊆ poisson_cache s1 /\
    (forall c r, (c, r) ∈ reqs ->
       poisson_cache s1 !! cache_key c r = Some (poisson_pmf c r)) /\
    value s1 = value s /\ policy s1 = policy s.
Proof.
  unfold requests. intros Hreqs. revert s.
  induction Hreqs as [|[n lam] reqs [Hn Hlam] _ IH]; intros s Hc; cbn [for_in].
  - exists s. split; [reflexivity|]. split; [exact Hc|]. split; [reflexivity|].
    split; [intros c r Hin; inversion Hin|]. split; reflexivity.
  - cbn [fst snd] in *.
    destruct (poisson_probability_ok n lam s Hn Hlam Hc)
      as (s0 & Hrun & Hkey & _ & Hsub & Hc0 & HV0 & HP0).
    destruct (IH s0 Hc0) as (s1 & Hrun1 & Hc1 & Hsub1 & Hall & HV1 & HP1).
    exists s1. unfold bind at 1 2. rewrite Hrun. cbn.
    split; [exact Hrun1|]. split; [exact Hc1|].
    split; [now transitivity (poisson_cache s0)|].
    split; [|split; congruence].
    intros c r Hin. apply elem_of_cons in Hin. destruct Hin as [[= -> ->]|Hin].
    + exact (lookup_weaken _ _ _ _ Hkey Hsub1).
    + now apply Hall.
Qed.

(** C5 (as the code has it). Cache entries are stored under the key
    [count * 10 + rate].  For rates in [[0, 10)] (the constraint the source
    states) this key identifies the pair: another pair with a rate in
    [[0, 10)] has another key.  Starting from the empty cache, after any
    sequence of requests with counts [>= 0] and rates in [[0, 10)], a
    request for such a [(count, rate)] returns the mass of exactly that
    count under exactly that rate, stores it under that key and leaves
    every other entry as it was; and the entry of every earlier request
    still holds the mass of its own pair. *)
Theorem cache_key_identifies_pair (reqs : list (Z * Z)) (n lam : Z) (s : store) :
  poisson_cache s = ∅ -> Forall in_key_domain reqs -> 0 <= n -> 0 <= lam < 10 ->
  (forall n' lam', 0 <= lam' < 10 -> (n', lam') <> (n, lam) ->
     cache_key n' lam' <> cache_key n lam) /\
  exists s1 s', requests reqs s = Ok (tt, s1) /\
    poisson_probability n lam s1 = Ok (poisson_pmf n lam, s') /\
    poisson_cache s' !! cache_key n lam = Some (poisson_pmf n lam) /\
    (forall k, k <> cache_key n lam -> poisson_cache s' !! k = poisson_cache s1 !! k) /\
    (forall c r, (c, r) ∈ reqs ->
       poisson_cache s' !! cache_key c r = Some (poisson_pmf c r)) /\
    value s' = value s /\ policy s' = policy s.
Proof.
  intros Hempty Hreqs Hn Hlam. split.
  - intros n' lam' Hlam' Hne Heq. apply Hne.
    apply cache_key_inj in Heq; [|assumption..]. destruct Heq as [-> ->]. reflexivity.
  - destruct (requests_ok reqs s Hreqs) as (s1 & Hrun1 & Hc1 & _ & Hall & HV1 & HP1).
    { rewrite Hempty. apply cache_ok_empty. }
    destruct (poisson_probability_ok n lam s1 Hn Hlam Hc1)
      as (s' & Hrun & Hkey & Hother & Hsub & _ & HV & HP).
    exists s1, s'. split; [exact Hrun1|]. split; [exact Hrun|]. split; [exact Hkey|].
    split; [exact Hother|]. split; [|split; congruence].
    intros c r Hin. exact (lookup_weaken _ _ _ _ (Hall c r Hin) Hsub).
Qed.

(** C9 (as the code has it). For a state of the table and an action
    that is feasible for it (the probability masses being non-negative), with
    state, action, value table, rates, discount and move cost fixed, the
    result of [expected_return] is non-decreasing in the per-unit rental
    credit; in particular doubling a non-negative credit never decreases it;
    and at state [(0, 0)] with action [0] the result is the same for every
    credit. *)
Theorem expected_return_monotone_in_credit (state : Z * Z) (a : Z) (flag : bool)
    (s : store) :
  wf_params -> in_table state -> legal (fst state) (snd state) a = true ->
  shape2 (MAX_CARS + 1) (value s) -> cache_ok (poisson_cache s) ->
  (forall n lam, 0 <= n -> 0 <= lam -> (0 <= poisson_pmf n lam)%Q) ->
  (forall c1 c2, c1 <= c2 ->
     exists r1 r2, expected_return_with_credit c1 state a flag s = Some r1 /\
       expected_return_with_credit c2 state a flag s = Some r2 /\ (r1 <= r2)%Q) /\
  (forall c, 0 <= c ->
     exists r1 r2, expected_return_with_credit c state a flag s = Some r1 /\
       expected_return_with_credit (2 * c) state a flag s = Some r2 /\ (r1 <= r2)%Q) /\
  (forall c1 c2,
     exists r1 r2, expected_return_with_credit c1 (0, 0) 0 flag s = Some r1 /\
       expected_return_with_credit c2 (0, 0) 0 flag s = Some r2 /\ (r1 == r2)%Q).
Proof.
  intros Hwf [H1 H2] Hlegal Hs Hc Hpmf.
  assert (Hrun : forall c st act,
    expected_return_with_credit c st act flag s =
    Some (@expected_return_fold (with_rental_credit P c) SP (value s) st act flag)).
  { intros c st act. unfold expected_return_with_credit.
    apply (@result_of_expected_return (with_rental_credit P c) SP); [exact Hwf|exact Hs|exact Hc]. }
  assert (Hmono : forall c1 c2, c1 <= c2 ->
    (@expected_return_fold (with_rental_credit P c1) SP (value s) state a flag <=
     @expected_return_fold (with_rental_credit P c2) SP (value s) state a flag)%Q).
  { intros c1 c2 Hle. rewrite !expected_return_fold_spec.
    apply legal_spec in Hlegal. pose proof Hwf as (HM & _).
    apply expected_return_spec_mono; [assumption|assumption| | |assumption];
      unfold post_move; cbn [fst snd]; lia. }
  split; [|split].
  - intros c1 c2 Hle. eexists _, _. rewrite !Hrun. auto.
  - intros c Hc0. eexists _, _. rewrite !Hrun. split; [reflexivity|].
    split; [reflexivity|]. apply Hmono. lia.
  - intros c1 c2. eexists _, _. rewrite !Hrun. split; [reflexivity|].
    split; [reflexivity|]. rewrite !expected_return_fold_spec.
    now apply expected_return_spec_origin.
Qed.

End MoreClaims.

Section DriverClaims.
Context {P : Params} {SP : Scipy}.

(** C2. One iteration of the policy-evaluation loop sweeps the states in
    row-major order and overwrites [value[i, j]] with
    [expected_return([i, j], policy[i, j], value, flag)] in place: the table
    that call reads has the new values at the states before [(i, j)] and the
    old ones at [(i, j)] and after it.  [max_value_change] is the maximum
    absolute difference between the table after the sweep and the snapshot
    taken before it, and the loop stops exactly after the first iteration
    where it is below [1e-4]. *)
Theorem policy_evaluation_in_place (flag : bool) (s : store) :
  wf_params -> store_ok s ->
  (exists d s1, evaluation_iteration flag s = Ok (d, s1) /\
     policy s1 = policy s /\ store_ok s1 /\
     (forall i j, in_table (i, j) ->
        exists T,
          (forall q, in_table q -> row_major_lt q (i, j) ->
             get2 T (fst q) (snd q) = get2 (value s1) (fst q) (snd q)) /\
          (forall q, in_table q -> ~ row_major_lt q (i, j) ->
             get2 T (fst q) (snd q) = get2 (value s) (fst q) (snd q)) /\
          forall sT, value sT = T -> cache_ok (poisson_cache sT) ->
            exists r,
              result_of (expected_return (i, j) (at2 0 (policy s) i j) flag) sT = Some r /\
              get2 (value s1) i j = Some r) /\
     (forall i j, in_table (i, j) ->
        (Qabs (at2 0%Q (value s) i j - at2 0%Q (value s1) i j) <= d)%Q) /\
     (exists i j, in_table (i, j) /\
        d = Qabs (at2 0%Q (value s) i j - at2 0%Q (value s1) i j))) /\
  (forall fuel s',
     policy_evaluation fuel flag s = Ok (tt, s') <->
     exists n d, (n < fuel)%nat /\ iterations n flag s = Ok (d, s') /\
       (d < threshold)%Q /\
       forall m, (m < n)%nat ->
         exists d' sm, iterations m flag s = Ok (d', sm) /\ ~ (d' < threshold)%Q).
Proof.
  intros Hwf Hs. split; [|intros fuel s'; apply policy_evaluation_stops].
  destruct (evaluation_iteration_spec Hwf flag s Hs) as (d & s1 & Hrun & HV & Hp & Hs1 & Hmax).
  exists d, s1. repeat (split; [assumption|]).
  destruct Hs as (HsV & Hspol & Hc). split; [|split].
  - intros i j Hin.
    destruct (sweep_states_at (backup (policy s) flag) (value s) (i, j) HsV Hin)
      as (T & HT & Hget & Hbefore & Hafter).
    exists T. rewrite HV. split; [exact Hbefore|]. split; [exact Hafter|].
    intros sT <- HcT. eexists. split; [|exact Hget].
    now apply result_of_expected_return.
  - intros i j Hin. apply np_max_spec in Hmax. apply Hmax.
    apply (elem_of_abs_diff _ _ (MAX_CARS + 1)); [assumption|apply Hs1|].
    exists i, j. split; [now apply in_table_inside|reflexivity].
  - apply np_max_spec in Hmax. destruct Hmax as [Hd _].
    apply (elem_of_abs_diff _ _ (MAX_CARS + 1)) in Hd; [|assumption|apply Hs1].
    destruct Hd as (i & j & Hin & ->). exists i, j.
    split; [now apply in_table_inside|reflexivity].
Qed.

(** C3. In the improvement loop for state [(i, j)] an action [a] is
    evaluated exactly when [0 <= a <= i] or [-j <= a <= 0]; every other
    action gets the entry [-inf] in [action_returns] and is never the action
    written to [policy[i, j]]; at state [(0, 0)] every action other than [0]
    is infeasible and [0] is selected. *)
Theorem infeasible_actions_never_selected (i j : Z) (flag policy_stable : bool)
    (s : store) :
  wf_params -> store_ok s -> in_table (i, j) ->
  (forall a, legal i j a = true <-> (0 <= a <= i) \/ (- j <= a <= 0)) /\
  (exists rs s1, action_returns i j flag s = Ok (rs, s1) /\
     length rs = length actions /\
     forall k a, actions !! k = Some a ->
       ((0 <= a <= i) \/ (- j <= a <= 0) ->
        exists r, result_of (expected_return (i, j) a flag) s = Some r /\
                  rs !! k = Some (Fin r)) /\
       (~ ((0 <= a <= i) \/ (- j <= a <= 0)) -> rs !! k = Some NegInf)) /\
  (exists b s2 a, improve_state i j flag policy_stable s = Ok (b, s2) /\
     get2 (policy s2) i j = Some a /\
     ((0 <= a <= i) \/ (- j <= a <= 0)) /\
     (i = 0 -> j = 0 -> a = 0)) /\
  (forall a, legal 0 0 a = true <-> a = 0).
Proof.
  intros Hwf Hs Hin. split; [intros a; apply legal_spec|]. split; [|split].
  - destruct (action_returns_run Hwf i j flag s Hs) as (s1 & Hrun).
    eexists _, s1. split; [exact Hrun|]. split; [now rewrite length_map|].
    intros k a Hk. change (map ?f ?l) with (f <$> l).
    rewrite list_lookup_fmap, Hk. cbn. unfold score. split.
    + intros Hl. apply legal_spec in Hl. rewrite Hl.
      eexists. split; [|reflexivity].
      apply (result_of_expected_return Hwf); apply Hs.
    + intros Hl. rewrite <- legal_spec in Hl.
      destruct (legal i j a); [exfalso; now apply Hl|reflexivity].
  - destruct (improve_state_run Hwf i j flag policy_stable s Hs Hin)
      as (b & s2 & Hrun & _ & _ & Hget).
    destruct (greedy_spec Hwf (value s) flag i j) as (k & _ & _ & Hl & _); [apply Hin..|].
    exists b, s2, (greedy (value s) flag (i, j)).
    split; [exact Hrun|]. split; [exact Hget|].
    apply legal_spec in Hl. split; [exact Hl|]. lia.
  - intros a. rewrite legal_spec. lia.
Qed.

(** C4. The improvement sweep writes, for every state, an action of
    [actions] (which enumerates [-MAX_MOVE_OF_CARS .. MAX_MOVE_OF_CARS] in
    increasing order) whose evaluated return is maximal, and among the
    maximisers the first in that order: every action before it has a
    strictly smaller evaluated return. *)
Theorem improvement_is_first_argmax (flag : bool) (s : store) :
  wf_params -> store_ok s ->
  (forall (k : nat) a, actions !! k = Some a <->
     a = - MAX_MOVE_OF_CARS + Z.of_nat k /\ Z.of_nat k <= 2 * MAX_MOVE_OF_CARS) /\
  exists b s', policy_improvement flag s = Ok (b, s') /\
    forall i j, in_table (i, j) ->
      exists a x, get2 (policy s') i j = Some a /\ a ∈ actions /\
        evaluated_return i j flag s a = Some x /\
        (forall a', a' ∈ actions ->
           exists y, evaluated_return i j flag s a' = Some y /\ ele y x) /\
        (forall a', a' ∈ actions -> a' < a ->
           exists y, evaluated_return i j flag s a' = Some y /\ elt y x).
Proof.
  intros Hwf Hs. split; [apply actions_lookup|].
  destruct (policy_improvement_run Hwf flag s Hs) as (b & s' & Hrun & _ & _ & Hget).
  exists b, s'. split; [exact Hrun|]. intros i j Hin.
  destruct (greedy_spec Hwf (value s) flag i j) as (k & _ & Hk & _ & Hmax & Hfirst);
    [apply Hin..|].
  exists (greedy (value s) flag (i, j)), (score (value s) i j flag (greedy (value s) flag (i, j))).
  split; [apply (Hget (i, j) Hin)|].
  split; [eapply list_elem_of_lookup_2, Hk|].
  split; [now apply evaluated_return_score|]. split.
  - intros a' Ha'. eexists. split; [now apply evaluated_return_score|]. now apply Hmax.
  - intros a' Ha' Hlt. eexists. split; [now apply evaluated_return_score|]. now apply Hfirst.
Qed.

(** C10. For every state [(i, j)] with [i, j >= 0] action [0] passes
    the feasibility test, so [action_returns] always has a finite entry (that
    of action [0]); the action written into [policy[i, j]], by the loop body
    and hence by every improvement sweep, is feasible for [(i, j)], has a
    finite evaluated return and lies in
    [[-MAX_MOVE_OF_CARS, MAX_MOVE_OF_CARS]]. *)
Theorem improved_policy_is_feasible (flag : bool) (s : store) :
  wf_params -> store_ok s ->
  (forall i j, 0 <= i -> 0 <= j -> legal i j 0 = true) /\
  (forall i j, 0 <= i -> 0 <= j ->
     exists rs s1 k r, action_returns i j flag s = Ok (rs, s1) /\
       actions !! k = Some 0 /\ rs !! k = Some (Fin r)) /\
  (forall i j policy_stable, in_table (i, j) ->
     exists b s1 a r, improve_state i j flag policy_stable s = Ok (b, s1) /\
       get2 (policy s1) i j = Some a /\ legal i j a = true /\
       evaluated_return i j flag s a = Some (Fin r) /\
       - MAX_MOVE_OF_CARS <= a <= MAX_MOVE_OF_CARS) /\
  exists b s', policy_improvement flag s = Ok (b, s') /\ store_ok s' /\
    forall i j, in_table (i, j) ->
      exists a, get2 (policy s') i j = Some a /\ legal i j a = true /\
        - MAX_MOVE_OF_CARS <= a <= MAX_MOVE_OF_CARS.
Proof.
  intros Hwf Hs.
  assert (H0 : forall i j, 0 <= i -> 0 <= j -> legal i j 0 = true)
    by (intros i j Hi Hj; apply legal_spec; lia).
  split; [exact H0|]. split; [|split].
  - intros i j Hi Hj. destruct (action_returns_run Hwf i j flag s Hs) as (s1 & Hrun).
    pose proof Hwf as (_ & HM & _).
    exists (map (score (value s) i j flag) actions), s1,
      (Z.to_nat MAX_MOVE_OF_CARS), (expected_return_fold (value s) (i, j) 0 flag).
    split; [exact Hrun|].
    assert (Hk : actions !! Z.to_nat MAX_MOVE_OF_CARS = Some 0)
      by (apply actions_lookup; lia).
    split; [exact Hk|]. change (map ?f ?l) with (f <$> l).
    rewrite list_lookup_fmap, Hk. cbn. unfold score. now rewrite H0.
  - intros i j policy_stable Hin.
    destruct (improve_state_run Hwf i j flag policy_stable s Hs Hin)
      as (b & s1 & Hrun & _ & _ & Hget).
    destruct (greedy_spec Hwf (value s) flag i j) as (k & _ & Hk & Hl & _); [apply Hin..|].
    exists b, s1, (greedy (value s) flag (i, j)),
      (expected_return_fold (value s) (i, j) (greedy (value s) flag (i, j)) flag).
    split; [exact Hrun|]. split; [exact Hget|]. split; [exact Hl|]. split.
    + rewrite evaluated_return_score by assumption. unfold score. now rewrite Hl.
    + apply elem_of_actions. eapply list_elem_of_lookup_2, Hk.
  - destruct (policy_improvement_run Hwf flag s Hs) as (b & s' & Hrun & _ & Hs' & Hget).
    exists b, s'. split; [exact Hrun|]. split; [exact Hs'|]. intros i j Hin.
    destruct (greedy_spec Hwf (value s) flag i j) as (k & _ & Hk & Hl & _); [apply Hin..|].
    exists (greedy (value s) flag (i, j)). split; [apply (Hget (i, j) Hin)|].
    split; [exact Hl|]. apply elem_of_actions. eapply list_elem_of_lookup_2, Hk.
Qed.

End DriverClaims.

(** * The model at work on the notebook's constants *)

Section Runs_of_the_notebook.
Local Existing Instance notebook.
Local Existing Instance rational_scipy.

Example expected_return_3_2 :
  option_map Qred (result_of (expected_return (3, 2) 1 true) initial_store)
  = Some (29171371979822 # 694225283939).
Proof. vm_compute. reflexivity. Qed.

Example expected_return_origin :
  option_map Qred (result_of (expected_return (0, 0) 0 true) initial_store) = Some 0%Q.
Proof. vm_compute. reflexivity. Qed.

Example expected_return_reads :
  match expected_return (3, 2) 1 true initial_store with
  | Ok (_, s) => Some (length (read_log s), firstn 3 (read_log s))
  | Err _ => None
  end = Some (121%nat, [(5, 5); (5, 4); (5, 3)]).
Proof. vm_compute. reflexivity. Qed.

Example np_argmax_first_of_ties :
  np_argmax [NegInf; Fin 1; Fin 3; Fin (6 # 2); NegInf; Fin 3] = Some 2%nat.
Proof. reflexivity. Qed.

Example action_returns_1_1 :
  match action_returns 1 1 true initial_store with
  | Ok (rs, _) => Some (map (fun x => match x with NegInf => None | Fin q => Some (Qred q) end) rs)
  | Err _ => None
  end = Some [None; None; None; None; Some (13952242 # 899569);
              Some (13411256285030 # 694225283939); Some (13040658 # 771731);
              None; None; None; None].
Proof. vm_compute. reflexivity. Qed.

Example get2_negative_index_wraps :
  get2 [[1; 2]; [3; 4]] (-1) 0 = Some 3 /\ get2 [[1; 2]; [3; 4]] 2 0 = None.
Proof. split; reflexivity. Qed.

(** C1, at state [(3, 2)] with action [1] on the initial store. *)
Lemma expected_return_is_expectation_witness :
  exists r s', expected_return (3, 2) 1 true initial_store = Ok (r, s') /\
    (r == expected_return_spec (value initial_store) (3, 2)%Z 1%Z true)%Q.
Proof.
  apply (expected_return_is_expectation (3, 2) 1 true initial_store).
  - unfold wf_params. cbn. lia.
  - split; cbn; lia.
  - reflexivity.
  - apply shape2_zeros. cbn. lia.
  - apply cache_ok_empty.
Defined.

(** C6, at state [(3, 2)] with action [1] on the initial store. *)
Lemma value_reads_in_table_witness :
  in_table (post_move (3, 2) 1) /\
  exists r s' reads, expected_return (3, 2) 1 false initial_store = Ok (r, s') /\
    read_log s' = read_log initial_store ++ reads /\
    Forall in_table reads /\
    Forall (fun p => is_Some (get2 (value initial_store) (fst p) (snd p))) reads.
Proof.
  apply (value_reads_in_table (3, 2) 1 false initial_store).
  - unfold wf_params. cbn. lia.
  - split; cbn; lia.
  - reflexivity.
  - apply shape2_zeros. cbn. lia.
Defined.



(** C8, at state [(3, 2)] with action [1] on the initial store. *)
Lemma expected_return_frame_witness :
  exists r s', expected_return (3, 2) 1 true initial_store = Ok (r, s') /\
    value s' = value initial_store /\ policy s' = policy initial_store /\
    (cache_ok (poisson_cache initial_store) ->
     result_of (expected_return (3, 2) 1 true) s' = Some r /\
     forall s2, value s2 = value initial_store -> cache_ok (poisson_cache s2) ->
       result_of (expected_return (3, 2) 1 true) s2 = Some r).
Proof.
  apply (expected_return_frame (3, 2) 1 true initial_store).
  - unfold wf_params. cbn. lia.
  - apply shape2_zeros. cbn. lia.
Defined.

(** C5, counterexample.  The pairs [(0, 10)] and [(1, 0)] differ but
    have the same key: after a request for count [0] under rate [10], a
    request for count [1] under rate [0] returns the mass stored for the
    former, which is not the mass of count [1] under rate [0]. *)
Lemma cache_key_collision :
  (0, 10) <> (1, 0) /\ cache_key 0 10 = cache_key 1 0 /\
  result_of (_ <- poisson_probability 0 10 ;; poisson_probability 1 0) initial_store
  = Some (poisson_pmf 0 10) /\
  ~ (poisson_pmf 0 10 == poisson_pmf 1 0)%Q.
Proof.
  split; [discriminate|]. split; [reflexivity|]. split; [vm_compute; reflexivity|].
  vm_compute. discriminate.
Qed.

(** C5 as amended: after requests for [(3, 4)] and [(2, 3)] on the initial
    store, a request for count [5] under rate [2]. *)
Lemma cache_key_identifies_pair_witness :
  (forall n' lam', 0 <= lam' < 10 -> (n', lam') <> (5, 2) ->
     cache_key n' lam' <> cache_key 5 2) /\
  exists s1 s', requests [(3, 4); (2, 3)] initial_store = Ok (tt, s1) /\
    poisson_probability 5 2 s1 = Ok (poisson_pmf 5 2, s') /\
    poisson_cache s' !! cache_key 5 2 = Some (poisson_pmf 5 2) /\
    (forall k, k <> cache_key 5 2 -> poisson_cache s' !! k = poisson_cache s1 !! k) /\
    (forall c r, (c, r) ∈ [(3, 4); (2, 3)] ->
       poisson_cache s' !! cache_key c r = Some (poisson_pmf c r)) /\
    value s' = value initial_store /\ policy s' = policy initial_store.
Proof.
  apply (cache_key_identifies_pair [(3, 4); (2, 3)] 5 2 initial_store).
  - reflexivity.
  - repeat constructor; cbn; lia.
  - lia.
  - lia.
Defined.

(** C9, counterexample.  Outside the evaluator's contract the result is
    not monotone in the credit: at state [(0, 0)] with the infeasible action
    [1], raising the credit from [10] to [20] lowers the result; and at the
    feasible [(3, 2)], action [1], doubling the credit [-1] lowers it. *)
Lemma credit_monotonicity_fails :
  (exists r1 r2,
     option_map Qred (expected_return_with_credit 10 (0, 0) 1 true initial_store) = Some r1 /\
     option_map Qred (expected_return_with_credit 20 (0, 0) 1 true initial_store) = Some r2 /\
     (r2 < r1)%Q) /\
  (exists r1 r2,
     option_map Qred (expected_return_with_credit (-1) (3, 2) 1 true initial_store) = Some r1 /\
     option_map Qred (expected_return_with_credit (2 * -1) (3, 2) 1 true initial_store)
     = Some r2 /\
     (r2 < r1)%Q).
Proof.
  split.
  - exists (-1685212 # 771731)%Q, (-1826962 # 771731)%Q.
    split; [vm_compute; reflexivity|]. split; [vm_compute; reflexivity|]. reflexivity.
  - exists (-4444432822648 # 694225283939)%Q, (-7500415077418 # 694225283939)%Q.
    split; [vm_compute; reflexivity|]. split; [vm_compute; reflexivity|]. reflexivity.
Qed.

(** C9, at state [(3, 2)] with action [1] on the initial store. *)
Lemma expected_return_monotone_in_credit_witness :
  (forall c1 c2, c1 <= c2 ->
     exists r1 r2, expected_return_with_credit c1 (3, 2) 1 true initial_store = Some r1 /\
       expected_return_with_credit c2 (3, 2) 1 true initial_store = Some r2 /\
       (r1 <= r2)%Q) /\
  (forall c, 0 <= c ->
     exists r1 r2, expected_return_with_credit c (3, 2) 1 true initial_store = Some r1 /\
       expected_return_with_credit (2 * c) (3, 2) 1 true initial_store = Some r2 /\
       (r1 <= r2)%Q) /\
  (forall c1 c2,
     exists r1 r2, expected_return_with_credit c1 (0, 0) 0 true initial_store = Some r1 /\
       expected_return_with_credit c2 (0, 0) 0 true initial_store = Some r2 /\
       (r1 == r2)%Q).
Proof.
  apply (expected_return_monotone_in_credit (3, 2) 1 true initial_store).
  - unfold wf_params. cbn. lia.
  - split; cbn; lia.
  - reflexivity.
  - apply shape2_zeros. cbn. lia.
  - apply cache_ok_empty.
  - exact rational_pmf_nonneg.
Defined.

Lemma store_ok_notebook : store_ok initial_store.
Proof.
  split; [apply shape2_zeros; cbn; lia|]. split; [apply shape2_zeros; cbn; lia|].
  apply cache_ok_empty.
Defined.

(** C2, for the first iteration from the initial store. *)
Lemma policy_evaluation_in_place_witness :
  (exists d s1, evaluation_iteration true initial_store = Ok (d, s1) /\
     policy s1 = policy initial_store /\ store_ok s1 /\
     (forall i j, in_table (i, j) ->
        exists T,
          (forall q, in_table q -> row_major_lt q (i, j) ->
             get2 T (fst q) (snd q) = get2 (value s1) (fst q) (snd q)) /\
          (forall q, in_table q -> ~ row_major_lt q (i, j) ->
             get2 T (fst q) (snd q) = get2 (value initial_store) (fst q) (snd q)) /\
          forall sT, value sT = T -> cache_ok (poisson_cache sT) ->
            exists r,
              result_of (expected_return (i, j) (at2 0 (policy initial_store) i j) true) sT
              = Some r /\
              get2 (value s1) i j = Some r) /\
     (forall i j, in_table (i, j) ->
        (Qabs (at2 0%Q (value initial_store) i j - at2 0%Q (value s1) i j) <= d)%Q) /\
     (exists i j, in_table (i, j) /\
        d = Qabs (at2 0%Q (value initial_store) i j - at2 0%Q (value s1) i j))) /\
  (forall fuel s',
     policy_evaluation fuel true initial_store = Ok (tt, s') <->
     exists n d, (n < fuel)%nat /\ iterations n true initial_store = Ok (d, s') /\
       (d < threshold)%Q /\
       forall m, (m < n)%nat ->
         exists d' sm, iterations m true initial_store = Ok (d', sm) /\
                       ~ (d' < threshold)%Q).
Proof.
  apply (policy_evaluation_in_place true initial_store).
  - unfold wf_params. cbn. lia.
  - exact store_ok_notebook.
Defined.

(** C3, at state [(0, 0)] on the initial store. *)
Lemma infeasible_actions_never_selected_witness :
  (forall a, legal 0 0 a = true <-> (0 <= a <= 0) \/ (- 0 <= a <= 0)) /\
  (exists rs s1, action_returns 0 0 true initial_store = Ok (rs, s1) /\
     length rs = length actions /\
     forall k a, actions !! k = Some a ->
       ((0 <= a <= 0) \/ (- 0 <= a <= 0) ->
        exists r, result_of (expected_return (0, 0) a true) initial_store = Some r /\
                  rs !! k = Some (Fin r)) /\
       (~ ((0 <= a <= 0) \/ (- 0 <= a <= 0)) -> rs !! k = Some NegInf)) /\
  (exists b s2 a, improve_state 0 0 true true initial_store = Ok (b, s2) /\
     get2 (policy s2) 0 0 = Some a /\
     ((0 <= a <= 0) \/ (- 0 <= a <= 0)) /\
     (0 = 0 -> 0 = 0 -> a = 0)) /\
  (forall a, legal 0 0 a = true <-> a = 0).
Proof.
  apply (infeasible_actions_never_selected 0 0 true true initial_store).
  - unfold wf_params. cbn. lia.
  - exact store_ok_notebook.
  - split; cbn; lia.
Defined.

(** C4, for the first improvement sweep from the initial store. *)
Lemma improvement_is_first_argmax_witness :
  (forall (k : nat) a, actions !! k = Some a <->
     a = - MAX_MOVE_OF_CARS + Z.of_nat k /\ Z.of_nat k <= 2 * MAX_MOVE_OF_CARS) /\
  exists b s', policy_improvement true initial_store = Ok (b, s') /\
    forall i j, in_table (i, j) ->
      exists a x, get2 (policy s') i j = Some a /\ a ∈ actions /\
        evaluated_return i j true initial_store a = Some x /\
        (forall a', a' ∈ actions ->
           exists y, evaluated_return i j true initial_store a' = Some y /\ ele y x) /\
        (forall a', a' ∈ actions -> a' < a ->
           exists y, evaluated_return i j true initial_store a' = Some y /\ elt y x).
Proof.
  apply (improvement_is_first_argmax true initial_store).
  - unfold wf_params. cbn. lia.
  - exact store_ok_notebook.
Defined.

(** C10, for the first improvement sweep from the initial store. *)
Lemma improved_policy_is_feasible_witness :
  (forall i j, 0 <= i -> 0 <= j -> legal i j 0 = true) /\
  (forall i j, 0 <= i -> 0 <= j ->
     exists rs s1 k r, action_returns i j true initial_store = Ok (rs, s1) /\
       actions !! k = Some 0 /\ rs !! k = Some (Fin r)) /\
  (forall i j policy_stable, in_table (i, j) ->
     exists b s1 a r, improve_state i j true policy_stable initial_store = Ok (b, s1) /\
       get2 (policy s1) i j = Some a /\ legal i j a = true /\
       evaluated_return i j true initial_store a = Some (Fin r) /\
       - MAX_MOVE_OF_CARS <= a <= MAX_MOVE_OF_CARS) /\
  exists b s', policy_improvement true initial_store = Ok (b, s') /\ store_ok s' /\
    forall i j, in_table (i, j) ->
      exists a, get2 (policy s') i j = Some a /\ legal i j a = true /\
        - MAX_MOVE_OF_CARS <= a <= MAX_MOVE_OF_CARS.
Proof.
  apply (improved_policy_is_feasible true initial_store).
  - unfold wf_params. cbn. lia.
  - exact store_ok_notebook.
Defined.

End Runs_of_the_notebook.

(** * Further properties of the code *)

(** ** Memoisation *)

Section Memoisation.
Context {P : Params} {SP : Scipy}.

Lemma poisson_probability_run (n lam : Z) (s : store) :
  exists v s', poisson_probability n lam s = Ok (v, s') /\
    poisson_cache s' !! cache_key n lam = Some v /\
    poisson_cache s ⊆ poisson_cache s' /\
    (poisson_cache s !! cache_key n lam = None -> v = poisson_pmf n lam) /\
    (forall w, poisson_cache s !! cache_key n lam = Some w -> v = w /\ s' = s) /\
    value s' = value s /\ policy s' = policy s /\ read_log s' = read_log s /\
    poisson_probability n lam s' = Ok (v, s').
Proof.
  unfold poisson_probability. cbv zeta.
  destruct (poisson_cache s !! cache_key n lam) as [w|] eqn:E.
  - exists w, s. rewrite E. cbn. rewrite !E. cbn.
    split; [reflexivity|]. split; [reflexivity|]. split; [reflexivity|].
    split; [discriminate|]. split; [now intros w' [= ->]|].
    repeat (split; [reflexivity|]). reflexivity.
  - eexists _, _. cbn [poisson_cache set_poisson_cache]. rewrite lookup_insert_eq.
    split; [reflexivity|]. cbn [poisson_cache value policy read_log].
    split; [apply lookup_insert_eq|]. split; [now apply insert_subseteq|].
    split; [reflexivity|]. split; [discriminate|].
    repeat (split; [reflexivity|]).
    cbn [poisson_cache set_poisson_cache]. rewrite lookup_insert_eq. cbn.
    now rewrite lookup_insert_eq.
Qed.

(** X1. [poisson_probability] never fails, whatever the count, the rate
    and the cache.  It returns the entry found under the key, or the mass it
    computes and stores when there is none; entries already in the cache are
    never overwritten; and a second request returns the same value and
    leaves the store as it is. *)
Theorem poisson_probability_memoises (n lam : Z) (s : store) :
  exists v s', poisson_probability n lam s = Ok (v, s') /\
    poisson_cache s' !! cache_key n lam = Some v /\
    poisson_cache s ⊆ poisson_cache s' /\
    (poisson_cache s !! cache_key n lam = None -> v = poisson_pmf n lam) /\
    (forall w, poisson_cache s !! cache_key n lam = Some w -> v = w /\ s' = s) /\
    value s' = value s /\ policy s' = policy s /\ read_log s' = read_log s /\
    poisson_probability n lam s' = Ok (v, s').
Proof. apply poisson_probability_run. Qed.

Lemma replays_ret {A} (a : A) : replays (ret a).
Proof.
  intros s r s' [= <- <-]. repeat (split; [reflexivity|]).
  intros t _ _. exists t. auto.
Qed.

Lemma replays_bind {A B} (m : M A) (k : A -> M B) :
  replays m -> (forall a, replays (k a)) -> replays (bind m k).
Proof.
  intros Hm Hk s r s2. unfold bind.
  destruct (m s) as [[a s1]|e] eqn:Hrun; [|discriminate]. intros Hrun2.
  destruct (Hm s a s1 Hrun) as (HV1 & HP1 & Hc1 & Hre1).
  destruct (Hk a s1 r s2 Hrun2) as (HV2 & HP2 & Hc2 & Hre2).
  split; [congruence|]. split; [congruence|]. split; [now transitivity (poisson_cache s1)|].
  intros t HVt Hct.
  destruct (Hre1 t HVt) as (t1 & -> & Hct1 & HVt1); [now transitivity (poisson_cache s2)|].
  destruct (Hre2 t1) as (t2 & Hrun' & Hct2 & HVt2); [congruence|now rewrite Hct1|].
  exists t2. split; [exact Hrun'|]. split; congruence.
Qed.

Lemma replays_for_in {A B} (xs : list B) (body : B -> A -> M A) acc :
  (forall x acc, replays (body x acc)) -> replays (for_in xs body acc).
Proof.
  intros Hbody. revert acc. induction xs as [|x xs IH]; intros acc; cbn [for_in].
  - apply replays_ret.
  - apply replays_bind; [apply Hbody|]. intros a. apply IH.
Qed.

Lemma replays_poisson_probability n lam : replays (poisson_probability n lam).
Proof.
  intros s r s' Hrun.
  destruct (poisson_probability_run n lam s)
    as (v & s1 & Hrun1 & Hin & Hsub & _ & _ & HV & HP & _ & _).
  rewrite Hrun in Hrun1. injection Hrun1 as -> ->.
  repeat (split; [assumption|]). intros t HVt Hct.
  pose proof (lookup_weaken _ _ _ _ Hin Hct) as Ht.
  exists t. unfold poisson_probability. cbv zeta. rewrite Ht. cbn. rewrite Ht. auto.
Qed.

Lemma replays_read_value i j : replays (read_value i j).
Proof.
  intros s r s'. unfold read_value. cbn [value log_read].
  destruct (get2 (value s) i j) as [v|] eqn:E; [|discriminate].
  cbn. intros [= <- <-]. cbn. repeat (split; [reflexivity|]).
  intros t HVt _. rewrite HVt, E. cbn. eexists. split; [reflexivity|]. auto.
Qed.

Lemma replays_expected_return state a flag : replays (expected_return state a flag).
Proof.
  unfold expected_return. cbv zeta.
  apply replays_for_in. intros r1 acc1. apply replays_for_in. intros r2 acc2.
  apply replays_bind; [apply replays_poisson_probability|]. intros p1.
  apply replays_bind; [apply replays_poisson_probability|]. intros p2.
  destruct flag.
  - apply replays_bind; [apply replays_read_value|]. intros v. apply replays_ret.
  - apply replays_for_in. intros u1 acc3. apply replays_for_in. intros u2 acc4.
    apply replays_bind; [apply replays_poisson_probability|]. intros q1.
    apply replays_bind; [apply replays_poisson_probability|]. intros q2.
    apply replays_bind; [apply replays_read_value|]. intros v. apply replays_ret.
Qed.

(** X2. The memoisation inside [expected_return] is transparent whatever
    the cache holds when the call starts: the call only adds entries to the
    cache, and any later call with the same arguments on the same value
    table, with a cache that still has those entries, returns the identical
    result and adds nothing to the cache. *)
Theorem expected_return_memoisation_transparent (state : Z * Z) (a : Z) (flag : bool)
    (s : store) :
  wf_params -> shape2 (MAX_CARS + 1) (value s) ->
  exists r s', expected_return state a flag s = Ok (r, s') /\
    poisson_cache s ⊆ poisson_cache s' /\
    (exists s'', expected_return state a flag s' = Ok (r, s'') /\
                 poisson_cache s'' = poisson_cache s') /\
    forall t, value t = value s -> poisson_cache s' ⊆ poisson_cache t ->
      exists t', expected_return state a flag t = Ok (r, t') /\
                 poisson_cache t' = poisson_cache t.
Proof.
  intros Hwf Hs.
  destruct (expected_return_total Hwf state a flag s Hs) as (r & s' & Hrun & _).
  destruct (replays_expected_return state a flag s r s' Hrun) as (HV & _ & Hsub & Hre).
  exists r, s'. split; [exact Hrun|]. split; [exact Hsub|]. split.
  - destruct (Hre s' HV) as (s'' & ? & ? & _); [reflexivity|]. eauto.
  - intros t HVt Hct. destruct (Hre t HVt Hct) as (t' & ? & ? & _). eauto.
Qed.

End Memoisation.

(** ** The number of reads of the value table *)

Section ReadCount.
Context {P : Params} {SP : Scipy}.

Lemma reads_ret {A} (a : A) : reads_exactly 0 (ret a).
Proof. intros s r s' [= <- <-]. lia. Qed.

Lemma reads_bind {A B} k1 k2 (m : M A) (k : A -> M B) :
  reads_exactly k1 m -> (forall a, reads_exactly k2 (k a)) ->
  reads_exactly (k1 + k2) (bind m k).
Proof.
  intros Hm Hk s r s2. unfold bind.
  destruct (m s) as [[a s1]|e] eqn:Hrun; [|discriminate]. intros Hrun2.
  rewrite (Hk a s1 r s2 Hrun2), (Hm s a s1 Hrun). lia.
Qed.

Lemma reads_for_in {A B} k (xs : list B) (body : B -> A -> M A) acc :
  (forall x acc, reads_exactly k (body x acc)) ->
  reads_exactly (length xs * k) (for_in xs body acc).
Proof.
  intros Hbody. revert acc. induction xs as [|x xs IH]; intros acc; cbn [for_in length].
  - apply reads_ret.
  - change (S (length xs) * k)%nat with (k + length xs * k)%nat.
    apply reads_bind; [apply Hbody|]. intros a. apply IH.
Qed.

Lemma reads_poisson_probability n lam : reads_exactly 0 (poisson_probability n lam).
Proof.
  intros s r s' Hrun.
  destruct (poisson_probability_run n lam s) as (v & s1 & Hrun1 & Hrest).
  rewrite Hrun in Hrun1. injection Hrun1 as -> ->.
  destruct Hrest as (_ & _ & _ & _ & _ & _ & Hlog & _). rewrite Hlog. lia.
Qed.

Lemma reads_read_value i j : reads_exactly 1 (read_value i j).
Proof.
  intros s r s'. unfold read_value. cbn [value log_read].
  destruct (get2 (value s) i j) as [v|]; [|discriminate].
  cbn. intros [= <- <-]. cbn. now rewrite length_app.
Qed.

Lemma reads_expected_return state a (flag : bool) :
  let N := Z.to_nat POISSON_UPPER_BOUND in
  reads_exactly (if flag then N * N else N * N * (N * N))%nat
                (expected_return state a flag).
Proof.
  intros N. unfold expected_return. cbv zeta.
  assert (Hlen : length (range POISSON_UPPER_BOUND) = N) by apply length_range.
  destruct flag.
  - replace (N * N)%nat with (N * (N * (0 + (0 + (1 + 0)))))%nat by lia.
    rewrite <- Hlen at 1 2.
    apply reads_for_in. intros r1 acc1. apply reads_for_in. intros r2 acc2.
    apply reads_bind; [apply reads_poisson_probability|]. intros p1.
    apply reads_bind; [apply reads_poisson_probability|]. intros p2.
    apply reads_bind; [apply reads_read_value|]. intros v. apply reads_ret.
  - replace (N * N * (N * N))%nat
      with (N * (N * (0 + (0 + N * (N * (0 + (0 + (1 + 0))))))))%nat by lia.
    rewrite <- Hlen at 1 2 3 4.
    apply reads_for_in. intros r1 acc1. apply reads_for_in. intros r2 acc2.
    apply reads_bind; [apply reads_poisson_probability|]. intros p1.
    apply reads_bind; [apply reads_poisson_probability|]. intros p2.
    apply reads_for_in. intros u1 acc3. apply reads_for_in. intros u2 acc4.
    apply reads_bind; [apply reads_poisson_probability|]. intros q1.
    apply reads_bind; [apply reads_poisson_probability|]. intros q2.
    apply reads_bind; [apply reads_read_value|]. intros v. apply reads_ret.
Qed.

(** X3. With [N = POISSON_UPPER_BOUND], a call of [expected_return] reads
    the value table exactly [N * N] times when the returned cars are
    constant and exactly [N * N * N * N] times when they are not. *)
Theorem expected_return_read_count (state : Z * Z) (a : Z) (flag : bool) (s : store) :
  wf_params -> shape2 (MAX_CARS + 1) (value s) ->
  exists r s' reads, expected_return state a flag s = Ok (r, s') /\
    read_log s' = read_log s ++ reads /\
    length reads =
      let N := Z.to_nat POISSON_UPPER_BOUND in
      if flag then (N * N)%nat else (N * N * (N * N))%nat.
Proof.
  intros Hwf Hs.
  destruct (expected_return_total Hwf state a flag s Hs)
    as (r & s' & Hrun & _ & _ & reads & Hlog & _).
  exists r, s', reads. split; [exact Hrun|]. split; [exact Hlog|].
  pose proof (reads_expected_return state a flag s r s' Hrun) as Hlen.
  rewrite Hlog, length_app in Hlen. cbv zeta in *. lia.
Qed.

End ReadCount.

(** ** Dependence on the value table *)

Lemma sum_over_weighted_shift xs (w f g : Z -> Q) (c : Q) :
  (forall x, x ∈ xs -> (0 <= w x)%Q) ->
  (forall x, x ∈ xs -> (f x <= g x + c)%Q) ->
  (sum_over xs (fun x => w x * f x) <=
   sum_over xs (fun x => w x * g x) + c * sum_over xs w)%Q.
Proof.
  induction xs as [|x xs IH]; intros Hw Hfg; simpl.
  - lra.
  - assert (H1 : (w x * f x <= w x * (g x + c))%Q)
      by (apply Qmult_le_nonneg_l; [apply Hw|apply Hfg]; left).
    assert (H2 := IH (fun y Hy => Hw y (list_elem_of_further _ _ _ Hy))
                     (fun y Hy => Hfg y (list_elem_of_further _ _ _ Hy))).
    lra.
Qed.

Lemma double_sum_weighted_shift xs ys (w1 w2 : Z -> Q) (F G : Z -> Z -> Q) (c : Q) :
  (forall x, x ∈ xs -> (0 <= w1 x)%Q) -> (forall y, y ∈ ys -> (0 <= w2 y)%Q) ->
  (forall x y, x ∈ xs -> y ∈ ys -> (F x y <= G x y + c)%Q) ->
  (sum_over xs (fun x => sum_over ys (fun y => w1 x * w2 y * F x y)) <=
   sum_over xs (fun x => sum_over ys (fun y => w1 x * w2 y * G x y))
   + c * (sum_over xs w1 * sum_over ys w2))%Q.
Proof.
  intros Hw1 Hw2 HFG.
  assert (Hre : forall H : Z -> Z -> Q,
    (sum_over xs (fun x => sum_over ys (fun y => w1 x * w2 y * H x y)) ==
     sum_over xs (fun x => w1 x * sum_over ys (fun y => w2 y * H x y)))%Q).
  { intros H. apply sum_over_ext. intros x _. rewrite <- sum_over_scale.
    apply sum_over_ext. intros y _. ring. }
  rewrite !Hre.
  eapply Qle_trans.
  - apply sum_over_weighted_shift with
      (g := fun x => sum_over ys (fun y => (w2 y * G x y)%Q)) (c := (c * sum_over ys w2)%Q).
    + exact Hw1.
    + intros x Hx. apply sum_over_weighted_shift; [exact Hw2|]. intros y Hy. now apply HFG.
  - lra.
Qed.

Section ValueTable.
Context {P : Params} {SP : Scipy}.
Hypothesis Hwf : wf_params.
Hypothesis Hpmf : forall n lam, 0 <= n -> 0 <= lam -> (0 <= poisson_pmf n lam)%Q.
Hypothesis HD : (0 <= DISCOUNT)%Q.
Variables (V V' : array2 Q) (c : Q).
Hypothesis HVV : forall i j, in_table (i, j) -> (at2 0%Q V i j <= at2 0%Q V' i j + c)%Q.

Lemma outcome_shift state a r1 r2 u1 u2 :
  0 <= r1 -> 0 <= r2 -> 0 <= u1 -> 0 <= u2 ->
  (outcome V state a r1 r2 u1 u2 <= outcome V' state a r1 r2 u1 u2 + DISCOUNT * c)%Q.
Proof.
  intros Hr1 Hr2 Hu1 Hu2. unfold outcome, post_move. cbn [fst snd].
  match goal with
  | |- (_ + DISCOUNT * at2 _ V ?i ?j <= _)%Q =>
    assert (Hin : in_table (i, j))
      by (split; cbn [fst snd]; apply next_count_in_table; assumption);
    pose proof (Qmult_le_nonneg_l DISCOUNT _ _ HD (HVV i j Hin))
  end.
  lra.
Qed.

(** Raising the value table by at most [c] raises the expected return by
    at most [DISCOUNT * c] times the mass the loops sum over. *)
Lemma expected_return_spec_shift state a flag :
  (expected_return_spec V state a flag <=
   expected_return_spec V' state a flag + DISCOUNT * c * total_mass flag)%Q.
Proof.
  pose proof Hwf as (_ & _ & Hr1 & Hr2 & Hu1 & Hu2).
  assert (Hw : forall lam, 0 <= lam -> forall x, x ∈ range POISSON_UPPER_BOUND ->
                 (0 <= poisson_pmf x lam)%Q).
  { intros lam Hlam x Hx. apply elem_of_range in Hx. apply Hpmf; lia. }
  unfold expected_return_spec, total_mass, truncated_mass. cbv zeta.
  destruct flag.
  - pose proof (double_sum_weighted_shift
      (range POISSON_UPPER_BOUND) (range POISSON_UPPER_BOUND)
      (fun r1 => poisson_pmf r1 RENTAL_REQUEST_FIRST_LOC)
      (fun r2 => poisson_pmf r2 RENTAL_REQUEST_SECOND_LOC)
      (fun r1 r2 => outcome V state a r1 r2 RETURNS_FIRST_LOC RETURNS_SECOND_LOC)
      (fun r1 r2 => outcome V' state a r1 r2 RETURNS_FIRST_LOC RETURNS_SECOND_LOC)
      (DISCOUNT * c)%Q) as H.
    cbv beta in H.
    specialize (H (Hw _ (proj1 Hr1)) (Hw _ (proj1 Hr2))).
    assert (H' := H (fun r1 r2 H1 H2 => outcome_shift state a r1 r2 _ _
      (proj1 (proj1 (elem_of_range _ _) H1)) (proj1 (proj1 (elem_of_range _ _) H2))
      (proj1 Hu1) (proj1 Hu2))).
    lra.
  - pose proof (double_sum_weighted_shift
      (range POISSON_UPPER_BOUND) (range POISSON_UPPER_BOUND)
      (fun r1 => poisson_pmf r1 RENTAL_REQUEST_FIRST_LOC)
      (fun r2 => poisson_pmf r2 RENTAL_REQUEST_SECOND_LOC)
      (fun r1 r2 => sum_over (range POISSON_UPPER_BOUND) (fun u1 =>
         sum_over (range POISSON_UPPER_BOUND) (fun u2 =>
           poisson_pmf u1 RETURNS_FIRST_LOC * poisson_pmf u2 RETURNS_SECOND_LOC *
           outcome V state a r1 r2 u1 u2)))%Q
      (fun r1 r2 => sum_over (range POISSON_UPPER_BOUND) (fun u1 =>
         sum_over (range POISSON_UPPER_BOUND) (fun u2 =>
           poisson_pmf u1 RETURNS_FIRST_LOC * poisson_pmf u2 RETURNS_SECOND_LOC *
           outcome V' state a r1 r2 u1 u2)))%Q
      (DISCOUNT * c *
       (sum_over (range POISSON_UPPER_BOUND) (fun n => poisson_pmf n RETURNS_FIRST_LOC) *
        sum_over (range POISSON_UPPER_BOUND) (fun n => poisson_pmf n RETURNS_SECOND_LOC)))%Q)
      as H.
    cbv beta in H.
    specialize (H (Hw _ (proj1 Hr1)) (Hw _ (proj1 Hr2))).
    assert (H' : forall r1 r2, r1 ∈ range POISSON_UPPER_BOUND ->
               r2 ∈ range POISSON_UPPER_BOUND -> _) by
     (intros r1 r2 H1 H2;
      apply (double_sum_weighted_shift
        (range POISSON_UPPER_BOUND) (range POISSON_UPPER_BOUND)
        (fun u1 => poisson_pmf u1 RETURNS_FIRST_LOC)
        (fun u2 => poisson_pmf u2 RETURNS_SECOND_LOC)
        (fun u1 u2 => outcome V state a r1 r2 u1 u2)
        (fun u1 u2 => outcome V' state a r1 r2 u1 u2)
        (DISCOUNT * c)%Q (Hw _ (proj1 Hu1)) (Hw _ (proj1 Hu2)));
      intros u1 u2 H3 H4;
      apply elem_of_range in H1, H2, H3, H4; apply outcome_shift; lia).
    specialize (H H'). lra.
Qed.

End ValueTable.

Lemma Qmult_unit_interval (x y : Q) :
  (0 <= x <= 1 -> 0 <= y <= 1 -> 0 <= x * y <= 1)%Q.
Proof.
  intros [Hx0 Hx1] [Hy0 Hy1]. split; [now apply Qmult_le_0_compat|].
  apply Qle_trans with (1 * y)%Q; [|lra].
  now apply Qmult_le_compat_r.
Qed.

Section ValueTableClaims.
Context {P : Params} {SP : Scipy}.

Lemma truncated_mass_nonneg lam :
  (forall n lam, 0 <= n -> 0 <= lam -> (0 <= poisson_pmf n lam)%Q) ->
  0 <= lam -> (0 <= truncated_mass lam)%Q.
Proof.
  intros Hpmf Hlam. unfold truncated_mass. apply sum_over_nonneg.
  intros n Hn. apply elem_of_range in Hn. apply Hpmf; lia.
Qed.

(** X4. [expected_return] is monotone in the value table: with a
    non-negative discount and non-negative probability masses, a table that
    is at least as large at every state gives a result that is at least as
    large, for every state and action. *)
Theorem expected_return_monotone_in_value (state : Z * Z) (a : Z) (flag : bool)
    (s s' : store) :
  wf_params -> (0 <= DISCOUNT)%Q ->
  (forall n lam, 0 <= n -> 0 <= lam -> (0 <= poisson_pmf n lam)%Q) ->
  shape2 (MAX_CARS + 1) (value s) -> shape2 (MAX_CARS + 1) (value s') ->
  cache_ok (poisson_cache s) -> cache_ok (poisson_cache s') ->
  (forall i j, in_table (i, j) ->
     (at2 0%Q (value s) i j <= at2 0%Q (value s') i j)%Q) ->
  exists r r', result_of (expected_return state a flag) s = Some r /\
    result_of (expected_return state a flag) s' = Some r' /\ (r <= r')%Q.
Proof.
  intros Hwf HD Hpmf Hs Hs' Hc Hc' Hle.
  eexists _, _. rewrite !(result_of_expected_return Hwf) by assumption.
  split; [reflexivity|]. split; [reflexivity|].
  rewrite !expected_return_fold_spec.
  pose proof (expected_return_spec_shift Hwf Hpmf HD (value s) (value s') 0%Q) as H.
  specialize (H (fun i j Hin => ltac:(specialize (Hle i j Hin); lra)) state a flag).
  lra.
Qed.

(** X5. [expected_return] is a contraction in the value table: when the
    masses summed by the loops are at most 1 for each of the four rates and
    two tables differ by at most [M] at every state, the results differ by
    at most [DISCOUNT * M], for every state and action.  (This is what makes
    the evaluation sweeps converge for a discount below 1.) *)
Theorem expected_return_contraction (state : Z * Z) (a : Z) (flag : bool)
    (s s' : store) (M : Q) :
  wf_params -> (0 <= DISCOUNT)%Q ->
  (forall n lam, 0 <= n -> 0 <= lam -> (0 <= poisson_pmf n lam)%Q) ->
  (truncated_mass RENTAL_REQUEST_FIRST_LOC <= 1)%Q ->
  (truncated_mass RENTAL_REQUEST_SECOND_LOC <= 1)%Q ->
  (truncated_mass RETURNS_FIRST_LOC <= 1)%Q ->
  (truncated_mass RETURNS_SECOND_LOC <= 1)%Q ->
  shape2 (MAX_CARS + 1) (value s) -> shape2 (MAX_CARS + 1) (value s') ->
  cache_ok (poisson_cache s) -> cache_ok (poisson_cache s') ->
  (forall i j, in_table (i, j) ->
     (Qabs (at2 0%Q (value s) i j - at2 0%Q (value s') i j) <= M)%Q) ->
  exists r r', result_of (expected_return state a flag) s = Some r /\
    result_of (expected_return state a flag) s' = Some r' /\
    (Qabs (r - r') <= DISCOUNT * M)%Q.
Proof.
  intros Hwf HD Hpmf Hm1 Hm2 Hm3 Hm4 Hs Hs' Hc Hc' Hdiff.
  eexists _, _. rewrite !(result_of_expected_return Hwf) by assumption.
  split; [reflexivity|]. split; [reflexivity|].
  rewrite !expected_return_fold_spec.
  assert (HM : (0 <= M)%Q).
  { eapply Qle_trans; [apply Qabs_nonneg|]. apply (Hdiff 0 0), in_table_origin, Hwf. }
  pose proof Hwf as (_ & _ & Hr1 & Hr2 & Hu1 & Hu2).
  assert (HW : (0 <= total_mass flag <= 1)%Q).
  { unfold total_mass.
    pose proof (truncated_mass_nonneg _ Hpmf (proj1 Hr1)).
    pose proof (truncated_mass_nonneg _ Hpmf (proj1 Hr2)).
    pose proof (truncated_mass_nonneg _ Hpmf (proj1 Hu1)).
    pose proof (truncated_mass_nonneg _ Hpmf (proj1 Hu2)).
    apply Qmult_unit_interval; [apply Qmult_unit_interval; split; assumption|].
    destruct flag; [lra|]. apply Qmult_unit_interval; split; assumption. }
  assert (HDM : (DISCOUNT * M * total_mass flag <= DISCOUNT * M)%Q).
  { assert (0 <= DISCOUNT * M)%Q by now apply Qmult_le_0_compat.
    apply Qle_trans with (DISCOUNT * M * 1)%Q; [|lra].
    apply Qmult_le_nonneg_l; [assumption|apply HW]. }
  pose proof (expected_return_spec_shift Hwf Hpmf HD (value s) (value s') M) as H1.
  pose proof (expected_return_spec_shift Hwf Hpmf HD (value s') (value s) M) as H2.
  specialize (H1 (fun i j Hin => ltac:(
    specialize (Hdiff i j Hin); apply Qabs_Qle_condition in Hdiff; lra)) state a flag).
  specialize (H2 (fun i j Hin => ltac:(
    specialize (Hdiff i j Hin); apply Qabs_Qle_condition in Hdiff; lra)) state a flag).
  apply Qabs_Qle_condition. split; lra.
Qed.

End ValueTableClaims.

(** ** The [policy_stable] flag and the outer loop *)

Lemma forallb_ext_elem_of {A} (h h' : A -> bool) xs :
  (forall x, x ∈ xs -> h x = h' x) -> forallb h xs = forallb h' xs.
Proof.
  induction xs as [|x xs IH]; intros H; cbn; [reflexivity|].
  rewrite (H x) by left. rewrite IH; [reflexivity|]. intros y Hy. apply H. now right.
Qed.

Section Stable.
Context {P : Params} {SP : Scipy}.
Hypothesis Hwf : wf_params.

(** The fold of the loop body: the swept policy table, and the conjunction
    of the tests "the old action is the greedy one". *)
Lemma improve_step_fold V flag ps T b :
  shape2 (MAX_CARS + 1) T -> Forall (inside (MAX_CARS + 1)) ps -> NoDup ps ->
  fold_left (improve_step V flag) ps (T, b) =
  (sweep_fold (fun _ => greedy V flag) ps T,
   b && forallb (fun p => at2 0 T (fst p) (snd p) =? greedy V flag p) ps).
Proof.
  revert T b. induction ps as [|p ps IH]; intros T b HT Hin Hnd; cbn [fold_left forallb].
  - cbn. now rewrite andb_true_r.
  - inversion Hin as [|? ? Hp Hps]; subst. apply NoDup_cons in Hnd. destruct Hnd as [Hnotin Hnd].
    destruct (sweep_step_spec (fun _ => greedy V flag) (MAX_CARS + 1) T p HT Hp)
      as (HT' & _ & Hother).
    unfold improve_step at 2. cbn [fst snd]. rewrite IH by assumption.
    cbn [sweep_fold fold_left]. f_equal.
    rewrite (forallb_ext_elem_of
               (fun q => at2 0 (sweep_step (fun _ => greedy V flag) T p) (fst q) (snd q)
                         =? greedy V flag q)
               (fun q => at2 0 T (fst q) (snd q) =? greedy V flag q)).
    + destruct b, (at2 0 T (fst p) (snd p) =? greedy V flag p); reflexivity.
    + intros q Hq. unfold at2. rewrite Hother; [reflexivity| |].
      * rewrite Forall_forall in Hps. now apply Hps.
      * intros ->. contradiction.
Qed.

Lemma improve_state_flag_spec V pol log0 i j flag policy_stable :
  shape2 (MAX_CARS + 1) V -> shape2 (MAX_CARS + 1) pol -> in_table (i, j) ->
  hoare (inv True V pol log0) (improve_state i j flag policy_stable)
        (fun b s => inv True V (fst (improve_step V flag (pol, policy_stable) (i, j))) log0 s /\
                    b = snd (improve_step V flag (pol, policy_stable) (i, j))).
Proof.
  intros HV Hpol Hin. unfold improve_state.
  destruct (greedy_spec Hwf V flag i j) as (k & Hk & Ha & _); [apply Hin..|].
  eapply hoare_bind; [now apply read_policy_spec|].
  intros old_action. apply hoare_pure. intros ->.
  eapply hoare_bind; [now apply action_returns_spec|].
  intros rs. apply hoare_pure. intros ->.
  eapply hoare_bind; [apply hoare_lift, Hk|].
  intros k'. apply hoare_pure. intros ->.
  eapply hoare_bind; [apply hoare_lift, Ha|].
  intros a. apply hoare_pure. intros ->.
  eapply hoare_bind; [now apply write_policy_spec|].
  intros u. apply hoare_ret. intros s Hs. split; [exact Hs|reflexivity].
Qed.

Lemma policy_improvement_flag_refines V pol log0 flag :
  shape2 (MAX_CARS + 1) V -> shape2 (MAX_CARS + 1) pol ->
  hoare (inv True V pol log0) (policy_improvement flag)
        (fun b s =>
           inv True V (fst (fold_left (improve_step V flag) states (pol, true))) log0 s /\
           b = snd (fold_left (improve_step V flag) states (pol, true))).
Proof.
  intros HV Hpol. unfold policy_improvement.
  pose (I := fun (Tb : array2 Z * bool) (acc : bool) (s : store) =>
               (inv True V (fst Tb) log0 s /\ acc = snd Tb) /\
               shape2 (MAX_CARS + 1) (fst Tb)).
  eapply hoare_conseq with (pre' := I (pol, true) true)
    (post' := fun acc => I (fold_left (improve_step V flag) states (pol, true)) acc).
  - rewrite <- fold_left_states.
    apply (hoare_for_in I). intros i Tb acc Hi. apply elem_of_range in Hi.
    apply (hoare_for_in I (fun Tb j => improve_step V flag Tb (i, j))).
    intros j [T b] acc2 Hj. apply elem_of_range in Hj.
    assert (Hin : in_table (i, j)) by (split; cbn; lia).
    apply hoare_pure. cbn [fst snd]. intros HT.
    apply hoare_pure. intros ->.
    eapply hoare_conseq; [apply (improve_state_flag_spec V T log0 i j flag b HV HT Hin)|auto|].
    intros b' s [Hs ->]. split; [split; [exact Hs|reflexivity]|].
    cbn [improve_step fst snd]. apply sweep_step_spec; [assumption|].
    now apply in_table_inside.
  - intros s Hs. split; [split; [exact Hs|reflexivity]|exact Hpol].
  - intros b s [[Hs Hb] _]. auto.
Qed.

(** An improvement sweep from a store that satisfies the invariant: what
    it writes, and what the flag it returns means. *)
Lemma policy_improvement_flag_run flag s :
  store_ok s ->
  exists b s', policy_improvement flag s = Ok (b, s') /\
    value s' = value s /\ store_ok s' /\
    (forall i j, in_table (i, j) ->
       get2 (policy s') i j = Some (greedy (value s) flag (i, j))) /\
    (b = true <->
     forall i j, in_table (i, j) ->
       get2 (policy s) i j = Some (greedy (value s) flag (i, j))).
Proof.
  intros (HV & Hpol & Hc).
  destruct (policy_improvement_flag_refines (value s) (policy s) (read_log s) flag
              HV Hpol s) as (b & s' & Hrun & (HV' & Hp' & _ & Hc') & Hb).
  { apply inv_start. auto. }
  rewrite improve_step_fold in Hp', Hb
    by (assumption || apply Forall_inside_states || apply NoDup_states).
  cbn [fst snd andb] in Hp', Hb.
  assert (Hshape : shape2 (MAX_CARS + 1) (policy s')).
  { rewrite Hp'. apply sweep_fold_shape; [assumption|apply Forall_inside_states]. }
  exists b, s'. split; [exact Hrun|]. split; [exact HV'|].
  split; [unfold store_ok; rewrite HV'; auto|]. split.
  - intros i j Hin. rewrite Hp'.
    destruct (sweep_states_at (fun _ => greedy (value s) flag) (policy s) (i, j) Hpol Hin)
      as (T & _ & Hget & _).
    exact Hget.
  - rewrite Hb, forallb_forall. split.
    + intros H i j Hin.
      assert (Hij : In (i, j) states) by now apply list_elem_of_In, elem_of_states.
      apply H in Hij. cbn [fst snd] in Hij. apply Z.eqb_eq in Hij. rewrite <- Hij.
      destruct Hin as [Hi Hj]. cbn in Hi, Hj.
      apply (get2_at2 0 (policy s) (MAX_CARS + 1)); [assumption|lia..].
    + intros H [i j] Hij. apply list_elem_of_In, elem_of_states in Hij.
      apply Z.eqb_eq. cbn [fst snd]. unfold at2. now rewrite (H i j Hij).
Qed.

End Stable.

Section OuterLoop.
Context {P : Params} {SP : Scipy}.

(** X6. The flag an improvement sweep returns is [True] exactly when the
    sweep left the policy table as it was at every state. *)
Theorem policy_stable_iff_unchanged (flag : bool) (s : store) :
  wf_params -> store_ok s ->
  exists b s', policy_improvement flag s = Ok (b, s') /\
    (b = true <->
     forall i j, in_table (i, j) -> get2 (policy s') i j = get2 (policy s) i j).
Proof.
  intros Hwf Hs.
  destruct (policy_improvement_flag_run Hwf flag s Hs) as (b & s' & Hrun & _ & _ & Hnew & Hb).
  exists b, s'. split; [exact Hrun|]. rewrite Hb. split.
  - intros H i j Hin. now rewrite Hnew, H.
  - intros H i j Hin. now rewrite <- H, Hnew.
Qed.

(** X7. Policy improvement is idempotent: a second sweep right after a
    first one (the value table being the same) reports a stable policy and
    leaves every entry of the policy table as the first sweep wrote it. *)
Theorem policy_improvement_idempotent (flag : bool) (s : store) :
  wf_params -> store_ok s ->
  exists b s' s'', policy_improvement flag s = Ok (b, s') /\
    policy_improvement flag s' = Ok (true, s'') /\
    forall i j, in_table (i, j) -> get2 (policy s'') i j = get2 (policy s') i j.
Proof.
  intros Hwf Hs.
  destruct (policy_improvement_flag_run Hwf flag s Hs) as (b & s' & Hrun & HV & Hs' & Hnew & _).
  destruct (policy_improvement_flag_run Hwf flag s' Hs')
    as (b2 & s'' & Hrun2 & _ & _ & Hnew2 & Hb2).
  rewrite HV in Hnew2, Hb2.
  assert (b2 = true) as -> by now apply Hb2.
  exists b, s', s''. split; [exact Hrun|]. split; [exact Hrun2|].
  intros i j Hin. now rewrite Hnew, Hnew2.
Qed.

(** The last round of the outer loop. *)
Lemma policy_iteration_last_round fuel eval_fuel flag s s' :
  wf_params -> store_ok s ->
  policy_iteration fuel eval_fuel flag s = Ok (tt, s') ->
  exists s0 s1, store_ok s0 /\ policy_evaluation eval_fuel flag s0 = Ok (tt, s1) /\
    policy_improvement flag s1 = Ok (true, s').
Proof.
  intros Hwf. revert s. induction fuel as [|fuel IH]; intros s Hs; [discriminate|].
  cbn [policy_iteration]. unfold bind.
  destruct (policy_evaluation eval_fuel flag s) as [[[] s1]|e] eqn:Heval; [|discriminate].
  destruct (policy_evaluation_store_ok Hwf eval_fuel flag s s1 Hs Heval) as [Hs1 _].
  destruct (policy_improvement_run Hwf flag s1 Hs1) as (b & s2 & Himp & _ & Hs2 & _).
  rewrite Himp. destruct b.
  - intros [= <-]. exists s, s1. auto.
  - now apply IH.
Qed.

(** X8. When the outer loop returns, the policy it returns is greedy for
    the value table it returns: at every state the action in the policy table
    has the largest evaluated return among all actions.  That value table is
    the one the last evaluation phase computed under this same policy, and
    the last improvement sweep changed no entry of the policy. *)
Theorem policy_iteration_returns_greedy_policy (fuel eval_fuel : nat) (flag : bool)
    (s s' : store) :
  wf_params -> store_ok s ->
  policy_iteration fuel eval_fuel flag s = Ok (tt, s') ->
  store_ok s' /\
  (forall i j, in_table (i, j) ->
     exists a x, get2 (policy s') i j = Some a /\ a ∈ actions /\
       legal i j a = true /\
       evaluated_return i j flag s' a = Some x /\
       forall a', a' ∈ actions ->
         exists y, evaluated_return i j flag s' a' = Some y /\ ele y x) /\
  exists s0 s1, policy_evaluation eval_fuel flag s0 = Ok (tt, s1) /\
    policy_improvement flag s1 = Ok (true, s') /\
    value s' = value s1 /\
    forall i j, in_table (i, j) -> get2 (policy s') i j = get2 (policy s0) i j.
Proof.
  intros Hwf Hs Hrun.
  destruct (policy_iteration_last_round fuel eval_fuel flag s s' Hwf Hs Hrun)
    as (s0 & s1 & Hs0 & Heval & Himp).
  destruct (policy_evaluation_store_ok Hwf eval_fuel flag s0 s1 Hs0 Heval) as [Hs1 Hpol].
  destruct (policy_improvement_flag_run Hwf flag s1 Hs1)
    as (b & s2 & Himp' & HV & Hs2 & Hnew & Hb).
  rewrite Himp in Himp'. injection Himp' as <- <-.
  split; [exact Hs2|]. split.
  - intros i j Hin. rewrite <- HV in Hnew.
    destruct (greedy_spec Hwf (value s') flag i j) as (k & _ & Hk & Hl & Hmax & _);
      [apply Hin..|].
    exists (greedy (value s') flag (i, j)),
      (score (value s') i j flag (greedy (value s') flag (i, j))).
    split; [now apply Hnew|]. split; [eapply list_elem_of_lookup_2, Hk|].
    split; [exact Hl|]. split; [now apply evaluated_return_score|].
    intros a' Ha'. eexists. split; [now apply evaluated_return_score|]. now apply Hmax.
  - exists s0, s1. split; [exact Heval|]. split; [exact Himp|]. split; [exact HV|].
    intros i j Hin. rewrite Hnew by assumption. rewrite <- Hpol.
    symmetry. now apply Hb.
Qed.

Lemma policy_legal_greedy flag s s' :
  wf_params ->
  (forall i j, in_table (i, j) ->
     get2 (policy s') i j = Some (greedy (value s) flag (i, j))) ->
  policy_legal s'.
Proof.
  intros Hwf Hnew i j Hin.
  destruct (greedy_spec Hwf (value s) flag i j) as (k & _ & Hk & Hl & _); [apply Hin..|].
  exists (greedy (value s) flag (i, j)). split; [now apply Hnew|]. split; [exact Hl|].
  apply elem_of_actions. eapply list_elem_of_lookup_2, Hk.
Qed.

Lemma policy_legal_initial : wf_params -> policy_legal initial_store.
Proof.
  intros Hwf i j Hin. pose proof Hwf as (HM & HMv & _).
  exists 0. split; [|split; [apply legal_spec; destruct Hin; cbn in *; lia|lia]].
  destruct Hin as [Hi Hj]. cbn in Hi, Hj.
  destruct (get2_lookup (policy initial_store) (MAX_CARS + 1) i j)
    as (row & x & Hrow & Hx & _ & ->); [apply shape2_zeros; lia|lia..|].
  cbn [policy initial_store] in Hrow. unfold zeros in Hrow.
  apply list_elem_of_lookup_2, list_elem_of_In, repeat_spec in Hrow. subst row.
  apply list_elem_of_lookup_2, list_elem_of_In, repeat_spec in Hx. now subst x.
Qed.

(** X9. The driver only ever evaluates feasible actions: the initial
    policy table holds a feasible action of [actions] at every state, an
    evaluation phase keeps such a table, and an improvement sweep and the
    whole of policy iteration end with one. *)
Theorem policy_table_stays_legal (flag : bool) (s : store) :
  wf_params -> store_ok s -> policy_legal s ->
  policy_legal initial_store /\
  (forall fuel s', policy_evaluation fuel flag s = Ok (tt, s') -> policy_legal s') /\
  (forall b s', policy_improvement flag s = Ok (b, s') -> policy_legal s') /\
  (forall fuel eval_fuel s',
     policy_iteration fuel eval_fuel flag s = Ok (tt, s') -> policy_legal s').
Proof.
  intros Hwf Hs Hlegal. split; [now apply policy_legal_initial|]. split; [|split].
  - intros fuel s' Hrun.
    destruct (policy_evaluation_store_ok Hwf fuel flag s s' Hs Hrun) as [_ Hpol].
    unfold policy_legal. now rewrite Hpol.
  - intros b s' Hrun.
    destruct (policy_improvement_flag_run Hwf flag s Hs) as (b' & s2 & Hrun' & _ & _ & Hnew & _).
    rewrite Hrun in Hrun'. injection Hrun' as <- <-.
    now apply (policy_legal_greedy flag s).
  - intros fuel eval_fuel s' Hrun.
    destruct (policy_iteration_last_round fuel eval_fuel flag s s' Hwf Hs Hrun)
      as (s0 & s1 & Hs0 & Heval & Himp).
    destruct (policy_evaluation_store_ok Hwf eval_fuel flag s0 s1 Hs0 Heval) as [Hs1 _].
    destruct (policy_improvement_flag_run Hwf flag s1 Hs1)
      as (b' & s2 & Hrun' & _ & _ & Hnew & _).
    rewrite Himp in Hrun'. injection Hrun' as _ <-.
    now apply (policy_legal_greedy flag s1).
Qed.

(** X10. The two phases do not touch each other's table: policy
    evaluation, however many sweeps it makes, leaves the policy table as it
    is, and a policy-improvement sweep leaves the value table as it is. *)
Theorem phases_keep_the_other_table (flag : bool) (s : store) :
  wf_params -> store_ok s ->
  (forall fuel s', policy_evaluation fuel flag s = Ok (tt, s') -> policy s' = policy s) /\
  (forall b s', policy_improvement flag s = Ok (b, s') -> value s' = value s).
Proof.
  intros Hwf Hs. split.
  - intros fuel s' Hrun. now destruct (policy_evaluation_store_ok Hwf fuel flag s s' Hs Hrun).
  - intros b s' Hrun.
    destruct (policy_improvement_run Hwf flag s Hs) as (b' & s2 & Hrun' & HV & _).
    rewrite Hrun in Hrun'. now injection Hrun' as <- <-.
Qed.

End OuterLoop.

(** ** Convergence of policy evaluation *)

Lemma qpow_nonneg g n : (0 <= g)%Q -> (0 <= qpow g n)%Q.
Proof.
  intros Hg. induction n as [|n IH]; cbn; [lra|]. now apply Qmult_le_0_compat.
Qed.

(** Bernoulli's inequality, in the form that needs no division. *)
Lemma qpow_bernoulli g n :
  (0 <= g <= 1)%Q -> (qpow g n * (1 + inject_Z (Z.of_nat n) * (1 - g)) <= 1)%Q.
Proof.
  intros [Hg0 Hg1]. induction n as [|n IH].
  - cbn [qpow]. change (inject_Z (Z.of_nat 0)) with 0%Q. lra.
  - pose proof (qpow_nonneg g n Hg0) as Hq.
    rewrite Nat2Z.inj_succ. unfold Z.succ. rewrite inject_Z_plus.
    cbn [qpow].
    set (q := qpow g n) in *. set (k := inject_Z (Z.of_nat n)) in *.
    assert (Hk : (0 <= k)%Q).
    { unfold k. change 0%Q with (inject_Z 0). rewrite <- Zle_Qle. lia. }
    change (inject_Z 1) with 1%Q.
    assert (H0 : (0 <= (k + 1) * ((1 - g) * (1 - g)))%Q)
      by (apply Qmult_le_0_compat; [lra|apply Qmult_le_0_compat; lra]).
    assert (H1 : (g * (1 + (k + 1) * (1 - g)) <= 1 + k * (1 - g))%Q).
    { apply Qle_minus_iff.
      assert (E : (1 + k * (1 - g) + - (g * (1 + (k + 1) * (1 - g))) ==
                   (k + 1) * ((1 - g) * (1 - g)))%Q) by ring.
      rewrite E. exact H0. }
    assert (H2 : (q * (g * (1 + (k + 1) * (1 - g))) <= q * (1 + k * (1 - g)))%Q)
      by now apply Qmult_le_nonneg_l.
    lra.
Qed.

(** Powers of a number below 1 become as small as one likes. *)
Lemma qpow_small g B eps :
  (0 <= g < 1)%Q -> (0 <= B)%Q -> (0 < eps)%Q -> exists n, (qpow g n * B < eps)%Q.
Proof.
  intros [Hg0 Hg1] HB Heps.
  assert (Hde : (0 < (1 - g) * eps)%Q) by (apply Qmult_lt_0_compat; lra).
  destruct (Qarchimedean (B / ((1 - g) * eps))) as [p Hp].
  exists (Pos.to_nat p).
  pose proof (qpow_bernoulli g (Pos.to_nat p) (conj Hg0 (Qlt_le_weak _ _ Hg1))) as Hb.
  pose proof (qpow_nonneg g (Pos.to_nat p) Hg0) as Hq.
  rewrite positive_nat_Z in Hb.
  set (q := qpow g (Pos.to_nat p)) in *.
  set (k := inject_Z (Z.pos p)) in *.
  assert (HBk : (B < k * ((1 - g) * eps))%Q).
  { assert (Heq : (B == B / ((1 - g) * eps) * ((1 - g) * eps))%Q) by (field; lra).
    rewrite Heq at 1. apply Qmult_lt_compat_r; [exact Hde|exact Hp]. }
  set (c := (1 + k * (1 - g))%Q) in *.
  assert (Hc : (0 < c)%Q).
  { unfold c. assert (0 <= k * (1 - g))%Q; [|lra].
    apply Qmult_le_0_compat; [|lra]. unfold k.
    change 0%Q with (inject_Z 0). rewrite <- Zle_Qle. lia. }
  assert (H1 : (q * B * c <= B)%Q).
  { assert (B * (q * c) <= B * 1)%Q by now apply Qmult_le_nonneg_l. lra. }
  assert (H2 : (B < eps * c)%Q) by (unfold c; lra).
  apply (Qmult_lt_r _ _ c Hc). lra.
Qed.

Section Contraction.
Context {P : Params} {SP : Scipy}.
Hypothesis Hwf : wf_params.
Hypothesis Hpmf : forall n lam, 0 <= n -> 0 <= lam -> (0 <= poisson_pmf n lam)%Q.
Hypothesis HD : (0 <= DISCOUNT <= 1)%Q.
Hypothesis Hm1 : (truncated_mass RENTAL_REQUEST_FIRST_LOC <= 1)%Q.
Hypothesis Hm2 : (truncated_mass RENTAL_REQUEST_SECOND_LOC <= 1)%Q.
Hypothesis Hm3 : (truncated_mass RETURNS_FIRST_LOC <= 1)%Q.
Hypothesis Hm4 : (truncated_mass RETURNS_SECOND_LOC <= 1)%Q.

Lemma total_mass_unit flag : (0 <= total_mass flag <= 1)%Q.
Proof.
  pose proof Hwf as (_ & _ & Hr1 & Hr2 & Hu1 & Hu2). unfold total_mass.
  pose proof (truncated_mass_nonneg _ Hpmf (proj1 Hr1)).
  pose proof (truncated_mass_nonneg _ Hpmf (proj1 Hr2)).
  pose proof (truncated_mass_nonneg _ Hpmf (proj1 Hu1)).
  pose proof (truncated_mass_nonneg _ Hpmf (proj1 Hu2)).
  apply Qmult_unit_interval; [apply Qmult_unit_interval; split; assumption|].
  destruct flag; [lra|]. apply Qmult_unit_interval; split; assumption.
Qed.

Lemma within_nonneg M V V' : within M V V' -> (0 <= M)%Q.
Proof.
  intros H. eapply Qle_trans; [apply Qabs_nonneg|]. apply (H 0 0), in_table_origin, Hwf.
Qed.

(** The backup of one state contracts distances by [DISCOUNT]. *)
Lemma expected_return_fold_contraction V V' M state a flag :
  within M V V' ->
  (Qabs (expected_return_fold V state a flag - expected_return_fold V' state a flag)
   <= DISCOUNT * M)%Q.
Proof.
  intros Hdiff. rewrite !expected_return_fold_spec.
  pose proof (within_nonneg M V V' Hdiff) as HM.
  pose proof (total_mass_unit flag) as HW.
  assert (HDM : (DISCOUNT * M * total_mass flag <= DISCOUNT * M)%Q).
  { assert (0 <= DISCOUNT * M)%Q by (apply Qmult_le_0_compat; [apply HD|exact HM]).
    apply Qle_trans with (DISCOUNT * M * 1)%Q; [|lra].
    apply Qmult_le_nonneg_l; [assumption|apply HW]. }
  pose proof (expected_return_spec_shift Hwf Hpmf (proj1 HD) V V' M) as H1.
  pose proof (expected_return_spec_shift Hwf Hpmf (proj1 HD) V' V M) as H2.
  specialize (H1 (fun i j Hin => ltac:(
    specialize (Hdiff i j Hin); apply Qabs_Qle_condition in Hdiff; lra)) state a flag).
  specialize (H2 (fun i j Hin => ltac:(
    specialize (Hdiff i j Hin); apply Qabs_Qle_condition in Hdiff; lra)) state a flag).
  apply Qabs_Qle_condition. split; lra.
Qed.

Lemma at2_sweep_step_eq {A} (d : A) f (arr : array2 A) p :
  shape2 (MAX_CARS + 1) arr -> inside (MAX_CARS + 1) p ->
  at2 d (sweep_step f arr p) (fst p) (snd p) = f arr p.
Proof.
  intros Hs Hp. destruct (sweep_step_spec f _ arr p Hs Hp) as (_ & Hget & _).
  unfold at2. now rewrite Hget.
Qed.

Lemma at2_sweep_step_ne {A} (d : A) f (arr : array2 A) p q :
  shape2 (MAX_CARS + 1) arr -> inside (MAX_CARS + 1) p -> inside (MAX_CARS + 1) q ->
  q <> p -> at2 d (sweep_step f arr p) (fst q) (snd q) = at2 d arr (fst q) (snd q).
Proof.
  intros Hs Hp Hq Hne. destruct (sweep_step_spec f _ arr p Hs Hp) as (_ & _ & Hother).
  unfold at2. now rewrite Hother.
Qed.

(** An evaluation sweep under one policy contracts distances by
    [DISCOUNT], although it updates in place. *)
Lemma sweep_contraction pol flag ps V V' M :
  shape2 (MAX_CARS + 1) V -> shape2 (MAX_CARS + 1) V' ->
  Forall (inside (MAX_CARS + 1)) ps -> NoDup ps -> within M V V' ->
  within M (sweep_fold (backup pol flag) ps V) (sweep_fold (backup pol flag) ps V') /\
  forall p, p ∈ ps ->
    (Qabs (at2 0%Q (sweep_fold (backup pol flag) ps V) (fst p) (snd p) -
           at2 0%Q (sweep_fold (backup pol flag) ps V') (fst p) (snd p))
     <= DISCOUNT * M)%Q.
Proof.
  revert V V'. induction ps as [|p ps IH]; intros V V' HV HV' Hin Hnd Hdiff.
  - split; [exact Hdiff|]. intros p Hp. inversion Hp.
  - inversion Hin as [|? ? Hp Hps]; subst.
    apply NoDup_cons in Hnd. destruct Hnd as [Hnotin Hnd].
    pose proof (within_nonneg M V V' Hdiff) as HM.
    assert (HDM : (DISCOUNT * M <= M)%Q).
    { assert (M * DISCOUNT <= M * 1)%Q by (apply Qmult_le_nonneg_l; [exact HM|apply HD]).
      lra. }
    set (V1 := sweep_step (backup pol flag) V p).
    set (V1' := sweep_step (backup pol flag) V' p).
    assert (Hp1 : (Qabs (at2 0%Q V1 (fst p) (snd p) - at2 0%Q V1' (fst p) (snd p))
                   <= DISCOUNT * M)%Q).
    { unfold V1, V1'. rewrite !at2_sweep_step_eq by assumption.
      unfold backup. now apply expected_return_fold_contraction. }
    assert (Hdiff1 : within M V1 V1').
    { intros i j Hij. destruct (decide ((i, j) = p)) as [<-|Hne].
      - cbn [fst snd] in Hp1. lra.
      - unfold V1, V1'.
        rewrite (at2_sweep_step_ne 0%Q _ V p (i, j)), (at2_sweep_step_ne 0%Q _ V' p (i, j))
          by (assumption || now apply in_table_inside).
        now apply Hdiff. }
    assert (HV1 : shape2 (MAX_CARS + 1) V1) by now apply sweep_step_spec.
    assert (HV1' : shape2 (MAX_CARS + 1) V1') by now apply sweep_step_spec.
    destruct (IH V1 V1' HV1 HV1' Hps Hnd Hdiff1) as [Hall Hswept].
    cbn [sweep_fold fold_left]. fold V1 V1'.
    change (fold_left (sweep_step (backup pol flag)) ps V1)
      with (sweep_fold (backup pol flag) ps V1).
    change (fold_left (sweep_step (backup pol flag)) ps V1')
      with (sweep_fold (backup pol flag) ps V1').
    split; [exact Hall|]. intros q Hq. apply elem_of_cons in Hq. destruct Hq as [->|Hq].
    + unfold at2.
      rewrite !(sweep_fold_other _ (MAX_CARS + 1)) by assumption.
      exact Hp1.
    + now apply Hswept.
Qed.

(** From one sweep to the next the maximum change shrinks by [DISCOUNT]. *)
Lemma max_value_change_step flag s d s1 d1 s2 :
  store_ok s -> evaluation_iteration flag s = Ok (d, s1) ->
  evaluation_iteration flag s1 = Ok (d1, s2) -> (d1 <= DISCOUNT * d)%Q.
Proof.
  intros Hs Hrun Hrun1.
  destruct (evaluation_iteration_spec Hwf flag s Hs)
    as (d' & s1' & Hrun' & HV1 & Hp1 & Hs1 & Hmax).
  rewrite Hrun in Hrun'. injection Hrun' as <- <-.
  destruct (evaluation_iteration_spec Hwf flag s1 Hs1)
    as (d1' & s2' & Hrun1' & HV2 & Hp2 & Hs2 & Hmax1).
  rewrite Hrun1 in Hrun1'. injection Hrun1' as <- <-.
  destruct Hs as (HV & Hpol & _).
  assert (Hdiff : within d (value s) (value s1)).
  { intros i j Hin. apply np_max_spec in Hmax. apply Hmax.
    apply (elem_of_abs_diff _ _ (MAX_CARS + 1)); [assumption|apply Hs1|].
    exists i, j. split; [now apply in_table_inside|reflexivity]. }
  destruct (sweep_contraction (policy s) flag states (value s) (value s1) d HV
              (proj1 Hs1) Forall_inside_states NoDup_states Hdiff) as [_ Hswept].
  rewrite <- HV1 in Hswept. rewrite Hp1 in HV2. rewrite <- HV2 in Hswept.
  apply np_max_spec in Hmax1. destruct Hmax1 as [Hd1 _].
  apply (elem_of_abs_diff _ _ (MAX_CARS + 1)) in Hd1; [|apply Hs1|apply Hs2].
  destruct Hd1 as (i & j & Hin & ->).
  apply (Hswept (i, j)). apply elem_of_states. now apply in_table_inside.
Qed.

(** Enough fuel: if the first maximum change is at most [B] and
    [DISCOUNT ^ n * B] is below the threshold, [n + 1] sweeps suffice. *)
Lemma policy_evaluation_enough_fuel flag n s B :
  store_ok s ->
  (forall d s1, evaluation_iteration flag s = Ok (d, s1) -> (d <= B)%Q) ->
  (qpow DISCOUNT n * B < threshold)%Q ->
  exists s', policy_evaluation (S n) flag s = Ok (tt, s').
Proof.
  revert s B. induction n as [|n IH]; intros s B Hs HB Hsmall.
  - destruct (evaluation_iteration_spec Hwf flag s Hs) as (d & s1 & Hrun & _).
    rewrite policy_evaluation_unfold, Hrun.
    destruct (Qlt_le_dec d threshold) as [_|Hge]; [eauto|].
    exfalso. specialize (HB d s1 Hrun). cbn [qpow] in Hsmall. lra.
  - destruct (evaluation_iteration_spec Hwf flag s Hs) as (d & s1 & Hrun & _ & _ & Hs1 & _).
    rewrite policy_evaluation_unfold, Hrun.
    destruct (Qlt_le_dec d threshold) as [_|Hge]; [eauto|].
    apply (IH s1 (DISCOUNT * B)%Q Hs1).
    + intros d1 s2 Hrun1.
      pose proof (max_value_change_step flag s d s1 d1 s2 Hs Hrun Hrun1).
      assert (DISCOUNT * d <= DISCOUNT * B)%Q
        by (apply Qmult_le_nonneg_l; [apply HD|now apply (HB d s1)]).
      lra.
    + cbn [qpow] in Hsmall. lra.
Qed.

End Contraction.

Section Convergence.
Context {P : Params} {SP : Scipy}.

Lemma policy_evaluation_more_fuel flag fuel fuel' s r :
  (fuel <= fuel')%nat -> policy_evaluation fuel flag s = Ok r ->
  policy_evaluation fuel' flag s = Ok r.
Proof.
  revert fuel' s. induction fuel as [|fuel IH]; intros fuel' s Hle; [discriminate|].
  destruct fuel' as [|fuel']; [lia|]. rewrite !policy_evaluation_unfold.
  destruct (evaluation_iteration flag s) as [[d s1]|e]; [|auto].
  destruct (Qlt_le_dec d threshold); [auto|]. apply IH. lia.
Qed.

(** X11. With a discount in [[0, 1]], non-negative masses and at most
    mass 1 summed by the loops for each rate, the in-place evaluation sweeps
    contract: the maximum value change of a sweep is at most [DISCOUNT]
    times that of the sweep before it. *)
Theorem max_value_change_shrinks (flag : bool) (s : store) :
  wf_params -> store_ok s ->
  (forall n lam, 0 <= n -> 0 <= lam -> (0 <= poisson_pmf n lam)%Q) ->
  (0 <= DISCOUNT <= 1)%Q ->
  (truncated_mass RENTAL_REQUEST_FIRST_LOC <= 1)%Q ->
  (truncated_mass RENTAL_REQUEST_SECOND_LOC <= 1)%Q ->
  (truncated_mass RETURNS_FIRST_LOC <= 1)%Q ->
  (truncated_mass RETURNS_SECOND_LOC <= 1)%Q ->
  exists d s1 d1 s2, evaluation_iteration flag s = Ok (d, s1) /\
    evaluation_iteration flag s1 = Ok (d1, s2) /\ (d1 <= DISCOUNT * d)%Q.
Proof.
  intros Hwf Hs Hpmf HD Hm1 Hm2 Hm3 Hm4.
  destruct (evaluation_iteration_spec Hwf flag s Hs) as (d & s1 & Hrun & _ & _ & Hs1 & _).
  destruct (evaluation_iteration_spec Hwf flag s1 Hs1) as (d1 & s2 & Hrun1 & _).
  exists d, s1, d1, s2. split; [exact Hrun|]. split; [exact Hrun1|].
  exact (max_value_change_step Hwf Hpmf HD Hm1 Hm2 Hm3 Hm4 flag s d s1 d1 s2 Hs Hrun Hrun1).
Qed.

(** X12. Policy evaluation terminates: with a discount in [[0, 1)],
    non-negative masses and at most mass 1 summed by the loops for each
    rate, the evaluation loop stops after finitely many sweeps -- there is
    an amount of fuel from which on it returns, always with the same
    store. *)
Theorem policy_evaluation_terminates (flag : bool) (s : store) :
  wf_params -> store_ok s ->
  (forall n lam, 0 <= n -> 0 <= lam -> (0 <= poisson_pmf n lam)%Q) ->
  (0 <= DISCOUNT < 1)%Q ->
  (truncated_mass RENTAL_REQUEST_FIRST_LOC <= 1)%Q ->
  (truncated_mass RENTAL_REQUEST_SECOND_LOC <= 1)%Q ->
  (truncated_mass RETURNS_FIRST_LOC <= 1)%Q ->
  (truncated_mass RETURNS_SECOND_LOC <= 1)%Q ->
  exists fuel s', forall fuel', (fuel <= fuel')%nat ->
    policy_evaluation fuel' flag s = Ok (tt, s').
Proof.
  intros Hwf Hs Hpmf [HD0 HD1] Hm1 Hm2 Hm3 Hm4.
  destruct (evaluation_iteration_spec Hwf flag s Hs) as (d & s1 & Hrun & _ & _ & _ & Hmax).
  assert (Hd : (0 <= d)%Q).
  { apply np_max_spec in Hmax. destruct Hmax as [Hin _].
    apply (elem_of_abs_diff _ _ (MAX_CARS + 1)) in Hin.
    - destruct Hin as (i & j & _ & ->). apply Qabs_nonneg.
    - apply Hs.
    - destruct (evaluation_iteration_spec Hwf flag s Hs) as (d' & s1' & Hrun' & _ & _ & Hs1 & _).
      rewrite Hrun in Hrun'. injection Hrun' as _ <-. apply Hs1. }
  destruct (qpow_small DISCOUNT d threshold (conj HD0 HD1) Hd) as [n Hn]; [reflexivity|].
  destruct (policy_evaluation_enough_fuel Hwf Hpmf (conj HD0 (Qlt_le_weak _ _ HD1))
              Hm1 Hm2 Hm3 Hm4 flag n s d Hs) as [s' Hs'].
  - intros d' s1' Hrun'. rewrite Hrun in Hrun'. injection Hrun' as <- _. apply Qle_refl.
  - exact Hn.
  - exists (S n), s'. intros fuel' Hle.
    now apply (policy_evaluation_more_fuel flag (S n)).
Qed.

End Convergence.

(** * The further properties on concrete environments *)

Section Further_runs_of_the_notebook.
Local Existing Instance notebook.
Local Existing Instance rational_scipy.

Lemma notebook_masses :
  (truncated_mass RENTAL_REQUEST_FIRST_LOC <= 1)%Q /\
  (truncated_mass RENTAL_REQUEST_SECOND_LOC <= 1)%Q /\
  (truncated_mass RETURNS_FIRST_LOC <= 1)%Q /\
  (truncated_mass RETURNS_SECOND_LOC <= 1)%Q.
Proof. repeat split; apply Qle_bool_imp_le; vm_compute; reflexivity. Defined.

Lemma notebook_discount : (0 <= DISCOUNT < 1)%Q.
Proof. split; [apply Qle_bool_imp_le|apply Qlt_alt]; vm_compute; reflexivity. Defined.

(** X2, at state [(3, 2)] with action [1] on the initial store. *)
Lemma expected_return_memoisation_transparent_witness :
  exists r s', expected_return (3, 2) 1 true initial_store = Ok (r, s') /\
    poisson_cache initial_store ⊆ poisson_cache s' /\
    (exists s'', expected_return (3, 2) 1 true s' = Ok (r, s'') /\
                 poisson_cache s'' = poisson_cache s') /\
    forall t, value t = value initial_store -> poisson_cache s' ⊆ poisson_cache t ->
      exists t', expected_return (3, 2) 1 true t = Ok (r, t') /\
                 poisson_cache t' = poisson_cache t.
Proof.
  apply (expected_return_memoisation_transparent (3, 2) 1 true initial_store).
  - unfold wf_params. cbn. lia.
  - apply shape2_zeros. cbn. lia.
Defined.

(** X3, at state [(3, 2)] with action [1] on the initial store. *)
Lemma expected_return_read_count_witness :
  exists r s' reads, expected_return (3, 2) 1 false initial_store = Ok (r, s') /\
    read_log s' = read_log initial_store ++ reads /\
    length reads =
      let N := Z.to_nat POISSON_UPPER_BOUND in
      if false then (N * N)%nat else (N * N * (N * N))%nat.
Proof.
  apply (expected_return_read_count (3, 2) 1 false initial_store).
  - unfold wf_params. cbn. lia.
  - apply shape2_zeros. cbn. lia.
Defined.

(** The initial store with a value table of ones. *)
Lemma at2_ones i j :
  in_table (i, j) -> at2 0%Q (value (set_value (zeros 1%Q (MAX_CARS + 1)) initial_store)) i j = 1%Q.
Proof.
  intros [Hi Hj]. cbn [fst snd] in Hi, Hj. cbn [value set_value] in *.
  destruct (get2_lookup (zeros 1%Q (MAX_CARS + 1)) (MAX_CARS + 1) i j)
    as (row & x & Hrow & Hx & _ & Hget); [apply shape2_zeros; cbn; lia|lia..|].
  unfold at2. rewrite Hget. cbn [default]. unfold zeros in Hrow.
  apply list_elem_of_lookup_2, list_elem_of_In, repeat_spec in Hrow. subst row.
  now apply list_elem_of_lookup_2, list_elem_of_In, repeat_spec in Hx.
Defined.

Lemma at2_initial i j : in_table (i, j) -> at2 0%Q (value initial_store) i j = 0%Q.
Proof.
  intros [Hi Hj]. cbn [fst snd] in Hi, Hj. cbn [value initial_store] in *.
  destruct (get2_lookup (zeros 0%Q (MAX_CARS + 1)) (MAX_CARS + 1) i j)
    as (row & x & Hrow & Hx & _ & Hget); [apply shape2_zeros; cbn; lia|lia..|].
  unfold at2. rewrite Hget. cbn [default]. unfold zeros in Hrow.
  apply list_elem_of_lookup_2, list_elem_of_In, repeat_spec in Hrow. subst row.
  now apply list_elem_of_lookup_2, list_elem_of_In, repeat_spec in Hx.
Defined.

(** X4: the table of zeros against the table of ones, at state [(3, 2)]
    with action [1]. *)
Lemma expected_return_monotone_in_value_witness :
  exists r r', result_of (expected_return (3, 2) 1 true) initial_store = Some r /\
    result_of (expected_return (3, 2) 1 true)
      (set_value (zeros 1%Q (MAX_CARS + 1)) initial_store) = Some r' /\
    (r <= r')%Q.
Proof.
  apply (expected_return_monotone_in_value (3, 2) 1 true initial_store
           (set_value (zeros 1%Q (MAX_CARS + 1)) initial_store)).
  - unfold wf_params. cbn. lia.
  - apply notebook_discount.
  - exact rational_pmf_nonneg.
  - apply shape2_zeros. cbn. lia.
  - apply shape2_zeros. cbn. lia.
  - apply cache_ok_empty.
  - apply cache_ok_empty.
  - intros i j Hin. rewrite (at2_initial i j Hin), (at2_ones i j Hin). discriminate.
Defined.

(** X5: the table of zeros against the table of ones, which differ by
    [M = 1] at every state, at state [(3, 2)] with action [1]. *)
Lemma expected_return_contraction_witness :
  exists r r', result_of (expected_return (3, 2) 1 true) initial_store = Some r /\
    result_of (expected_return (3, 2) 1 true)
      (set_value (zeros 1%Q (MAX_CARS + 1)) initial_store) = Some r' /\
    (Qabs (r - r') <= DISCOUNT * 1)%Q.
Proof.
  apply (expected_return_contraction (3, 2) 1 true initial_store
           (set_value (zeros 1%Q (MAX_CARS + 1)) initial_store) 1).
  - unfold wf_params. cbn. lia.
  - apply notebook_discount.
  - exact rational_pmf_nonneg.
  - apply notebook_masses.
  - apply notebook_masses.
  - apply notebook_masses.
  - apply notebook_masses.
  - apply shape2_zeros. cbn. lia.
  - apply shape2_zeros. cbn. lia.
  - apply cache_ok_empty.
  - apply cache_ok_empty.
  - intros i j Hin. rewrite (at2_initial i j Hin), (at2_ones i j Hin). discriminate.
Defined.

(** The two results of the witnesses of X4 and X5. *)
Example expected_return_zeros_and_ones :
  option_map Qred (result_of (expected_return (3, 2) 1 true) initial_store)
  = Some (29171371979822 # 694225283939) /\
  option_map Qred (result_of (expected_return (3, 2) 1 true)
                     (set_value (zeros 1%Q (MAX_CARS + 1)) initial_store))
  = Some (297961747353671 # 6942252839390).
Proof. split; vm_compute; reflexivity. Qed.

(** X6, for the first improvement sweep from the initial store. *)
Lemma policy_stable_iff_unchanged_witness :
  exists b s', policy_improvement true initial_store = Ok (b, s') /\
    (b = true <->
     forall i j, in_table (i, j) ->
       get2 (policy s') i j = get2 (policy initial_store) i j).
Proof.
  apply (policy_stable_iff_unchanged true initial_store).
  - unfold wf_params. cbn. lia.
  - exact store_ok_notebook.
Defined.

(** X7, for the first improvement sweeps from the initial store. *)
Lemma policy_improvement_idempotent_witness :
  exists b s' s'', policy_improvement true initial_store = Ok (b, s') /\
    policy_improvement true s' = Ok (true, s'') /\
    forall i j, in_table (i, j) -> get2 (policy s'') i j = get2 (policy s') i j.
Proof.
  apply (policy_improvement_idempotent true initial_store).
  - unfold wf_params. cbn. lia.
  - exact store_ok_notebook.
Defined.

(** X9, from the initial store. *)
Lemma policy_table_stays_legal_witness :
  policy_legal initial_store /\
  (forall fuel s', policy_evaluation fuel true initial_store = Ok (tt, s') ->
     policy_legal s') /\
  (forall b s', policy_improvement true initial_store = Ok (b, s') -> policy_legal s') /\
  (forall fuel eval_fuel s',
     policy_iteration fuel eval_fuel true initial_store = Ok (tt, s') -> policy_legal s').
Proof.
  apply (policy_table_stays_legal true initial_store).
  - unfold wf_params. cbn. lia.
  - exact store_ok_notebook.
  - apply policy_legal_initial. unfold wf_params. cbn. lia.
Defined.

(** X10, from the initial store. *)
Lemma phases_keep_the_other_table_witness :
  (forall fuel s', policy_evaluation fuel true initial_store = Ok (tt, s') ->
     policy s' = policy initial_store) /\
  (forall b s', policy_improvement true initial_store = Ok (b, s') ->
     value s' = value initial_store).
Proof.
  apply (phases_keep_the_other_table true initial_store).
  - unfold wf_params. cbn. lia.
  - exact store_ok_notebook.
Defined.

(** X11, for the first two sweeps from the initial store. *)
Lemma max_value_change_shrinks_witness :
  exists d s1 d1 s2, evaluation_iteration true initial_store = Ok (d, s1) /\
    evaluation_iteration true s1 = Ok (d1, s2) /\ (d1 <= DISCOUNT * d)%Q.
Proof.
  apply (max_value_change_shrinks true initial_store).
  - unfold wf_params. cbn. lia.
  - exact store_ok_notebook.
  - exact rational_pmf_nonneg.
  - split; [apply notebook_discount|apply Qlt_le_weak, notebook_discount].
  - apply notebook_masses.
  - apply notebook_masses.
  - apply notebook_masses.
  - apply notebook_masses.
Defined.

(** X12, from the initial store. *)
Lemma policy_evaluation_terminates_witness :
  exists fuel s', forall fuel', (fuel <= fuel')%nat ->
    policy_evaluation fuel' true initial_store = Ok (tt, s').
Proof.
  apply (policy_evaluation_terminates true initial_store).
  - unfold wf_params. cbn. lia.
  - exact store_ok_notebook.
  - exact rational_pmf_nonneg.
  - apply notebook_discount.
  - apply notebook_masses.
  - apply notebook_masses.
  - apply notebook_masses.
  - apply notebook_masses.
Defined.

End Further_runs_of_the_notebook.

Section Runs_of_the_small_lot.
Local Existing Instance small_lot.
Local Existing Instance certain_scipy.

(** Policy iteration on the small lot: two rounds, and cars are moved to
    the empty location. *)
Example policy_iteration_small_lot :
  match policy_iteration 5 5 true initial_store with
  | Ok (_, s) => Some (value s, policy s)
  | Err _ => None
  end = Some ([[0; 10; 18]; [10; 20; 20]; [18; 20; 20]]%Q,
              [[0; 0; -1]; [0; 0; 0]; [1; 0; 0]]).
Proof. vm_compute. reflexivity. Qed.

(** X8, for policy iteration on the small lot. *)
Lemma policy_iteration_returns_greedy_policy_witness :
  exists s', policy_iteration 5 5 true initial_store = Ok (tt, s') /\
  store_ok s' /\
  (forall i j, in_table (i, j) ->
     exists a x, get2 (policy s') i j = Some a /\ a ∈ actions /\
       legal i j a = true /\
       evaluated_return i j true s' a = Some x /\
       forall a', a' ∈ actions ->
         exists y, evaluated_return i j true s' a' = Some y /\ ele y x) /\
  exists s0 s1, policy_evaluation 5 true s0 = Ok (tt, s1) /\
    policy_improvement true s1 = Ok (true, s') /\
    value s' = value s1 /\
    forall i j, in_table (i, j) -> get2 (policy s') i j = get2 (policy s0) i j.
Proof.
  destruct (policy_iteration 5 5 true initial_store) as [[[] s']|e] eqn:E.
  - exists s'. split; [reflexivity|].
    apply (policy_iteration_returns_greedy_policy 5 5 true initial_store s').
    + unfold wf_params. cbn. lia.
    + split; [apply shape2_zeros; cbn; lia|]. split; [apply shape2_zeros; cbn; lia|].
      apply cache_ok_empty.
    + exact E.
  - exfalso. vm_compute in E. discriminate E.
Defined.

End Runs_of_the_small_lot.
